(** * gcr-cleaner: filters, live-image index, retention decision, server

    A shallow embedding of the Go package [gcrcleaner]
    ([pkg/gcrcleaner/filter.go], [pkg/gcrcleaner/server.go]) together with
    the properties its specification states about it.

    Conventions of the embedding:
    - a Go [string] is a [String.string]; a slice is a [list];
    - a Go [map[string][]string] is a [gmap string (list string)];
    - a function returning [(T, error)] returns a [result T];
    - a method that mutates its receiver takes the receiver and returns the
      new one;
    - code the two files call but do not define ([regexp.Compile],
      [gcrname.ParseReference], [time.ParseDuration], [Cleaner.Clean], ...)
      is a [Variable] of the section that uses it, or a field of the record
      [Server.Externals]; every property is proved for all of them. *)

From Stdlib Require Import ZArith String Ascii List Bool Lia.
From Stdlib Require Import Sorting.Sorted Permutation.
From Stdlib Require SpecFloat.
From stdpp Require Import base option list gmap strings sorting pretty.
Import ListNotations.

Local Open Scope string_scope.
Local Open Scope list_scope.

(** ** Go errors and results *)

(** [fmt.Errorf(format, args...)]: the format string and its arguments are
    kept as they are written in the source.  [Errorf] is a call without a
    [%w] verb, [ErrorfW] a call whose last argument is the error given for
    [%w].  [ExternalError] is an error value made by a library outside this
    package. *)
Inductive error : Type :=
| ExternalError (msg : string)
| Errorf (format : string) (args : list string)
| ErrorfW (format : string) (args : list string) (wrapped : error).

Inductive result (T : Type) : Type :=
| Ok (v : T)
| Err (e : error).
Arguments Ok {T} v.
Arguments Err {T} e.

(** ** Regular expressions (package [regexp])

    A compiled [*regexp.Regexp] is known to this package through two
    methods only: [String], its source text, and [MatchString]. *)
Record Regexp : Type := mkRegexp {
  re_String : string;
  MatchString : string -> bool
}.

(** * filter.go: item filters *)
Module ItemFilter.

(** The three implementations of the interface [ItemFilter].  The field
    [re] is a pointer and may be nil. *)
Inductive t : Type :=
| ItemFilterNull
| ItemFilterAny (re : option Regexp)
| ItemFilterAll (re : option Regexp).

(** [for _, t := range tags { if f.re.MatchString(t) { return true } }
    return false] *)
Fixpoint any_range (re : Regexp) (tags : list string) : bool :=
  match tags with
  | [] => false
  | t :: rest => if MatchString re t then true else any_range re rest
  end.

(** [for _, t := range tags { if !f.re.MatchString(t) { return false } }
    return true] *)
Fixpoint all_range (re : Regexp) (tags : list string) : bool :=
  match tags with
  | [] => true
  | t :: rest => if negb (MatchString re t) then false else all_range re rest
  end.

Definition Matches (f : t) (tags : list string) : bool :=
  match f with
  | ItemFilterNull => false
  | ItemFilterAny re =>
      match re with
      | None => false
      | Some r => any_range r tags
      end
  | ItemFilterAll re =>
      match re with
      | None => false
      | Some r => all_range r tags
      end
  end.

(** [Name]; [None] is the nil-pointer panic of [f.re.String()]. *)
Definition Name (f : t) : option string :=
  match f with
  | ItemFilterNull => Some "(none)"
  | ItemFilterAny re => (fun r => "any(" +:+ re_String r +:+ ")") <$> re
  | ItemFilterAll re => (fun r => "all(" +:+ re_String r +:+ ")") <$> re
  end.

Definition nonempty (s : string) : bool := negb (String.eqb s "").

Section Build.

(** [regexp.Compile]. *)
Variable Compile : string -> result Regexp.

(** [BuildItemFilter].  The two [fmt.Println] calls write the compiled
    expression to standard output and do not change what is returned;
    standard output is not part of the model. *)
Definition BuildItemFilter (any all : string) : result t :=
  if nonempty any && nonempty all then
    Err (Errorf "only one tag filter type may be specified" [])
  else if nonempty any then
    match Compile any with
    | Err err =>
        Err (ErrorfW
               "failed to compile 'any' item filter regular expression %q: %w"
               [any] err)
    | Ok re => Ok (ItemFilterAny (Some re))
    end
  else if nonempty all then
    match Compile all with
    | Err err =>
        Err (ErrorfW
               "failed to compile 'all' item filter regular expression %q: %w"
               [all] err)
    | Ok re => Ok (ItemFilterAll (Some re))
    end
  else
    Ok ItemFilterNull.

End Build.

End ItemFilter.

(** * filter.go: the live-image index *)

(** [gcrname.Reference], as far as this package looks at it:
    [ref.Context().String()] and [ref.Identifier()]. *)
Record Reference : Type := mkReference {
  Context_String : string;
  Identifier : string
}.

(** The interface [PodFilter]. *)
Class PodFilter (A : Type) : Type := {
  pf_Add : A -> string -> A * option error;
  pf_Matches : A -> string -> string -> list string -> bool
}.

Module AssetPodFilter.

Record t : Type := mk {
  images : gmap string (list string);
  repos : list string
}.

Definition NewAssetPodFilter (repos : list string) : t :=
  {| images := ∅; repos := repos |}.

(** The value of [repoMatches] after
    [for _, repo := range a.repos { if strings.HasPrefix(image, repo) {
    repoMatches = true; break } }]. *)
Fixpoint repos_range (image : string) (repos : list string) : bool :=
  match repos with
  | [] => false
  | repo :: rest =>
      if String.prefix repo image then true else repos_range image rest
  end.

Section Add.

(** [gcrname.ParseReference]. *)
Variable ParseReference : string -> result Reference.

(** [Add] returns the receiver after the call and the error ([None] is
    nil). *)
Definition Add (a : t) (image : string) : t * option error :=
  let repoMatches := repos_range image (repos a) in
  if negb repoMatches then (a, None)
  else
    match ParseReference image with
    | Err err => (a, Some err)
    | Ok ref =>
        let repo :=
          match images a !! Context_String ref with
          | Some repo => repo
          | None => []
          end in
        let repo := repo ++ [Identifier ref] in
        ({| images := <[Context_String ref := repo]> (images a);
            repos := repos a |}, None)
    end.

End Add.

(** [for _, tag := range tags { if identifier == tag { return true } }];
    [false] when the loop ends without returning. *)
Fixpoint tags_range (identifier : string) (tags : list string) : bool :=
  match tags with
  | [] => false
  | tag :: rest =>
      if String.eqb identifier tag then true else tags_range identifier rest
  end.

(** The loop over [repoMatch]; [false] when it ends without returning. *)
Fixpoint identifiers_range (digest : string) (tags : list string)
    (repoMatch : list string) : bool :=
  match repoMatch with
  | [] => false
  | identifier :: rest =>
      if String.eqb identifier "" then identifiers_range digest tags rest
      else if String.prefix identifier digest then true
      else if tags_range identifier tags then true
      else identifiers_range digest tags rest
  end.

Definition Matches (a : t) (repo digest : string) (tags : list string)
    : bool :=
  match images a !! repo with
  | Some repoMatch => identifiers_range digest tags repoMatch
  | None => false
  end.

Definition podFilter (ParseReference : string -> result Reference)
    : PodFilter t :=
  {| pf_Add := Add ParseReference; pf_Matches := Matches |}.

End AssetPodFilter.

(** [mockPodFilter] of the tests: matches nothing, adds nothing. *)
Definition mockPodFilter : PodFilter unit :=
  {| pf_Add := fun f _ => (f, None); pf_Matches := fun _ _ _ _ => false |}.

(** * Instants and durations (package [time])

    A [time.Duration] is an int64 count of nanoseconds.  A [time.Time] is
    modelled as the count of nanoseconds since the zero time; [Add] is then
    addition (the saturation of [Time.Add] at the ends of the representable
    range is out of reach of wall-clock instants and int64 durations). *)
Definition Duration : Type := Z.
Definition Time : Type := Z.
Bind Scope Z_scope with Duration.
Bind Scope Z_scope with Time.

Definition Nanosecond : Duration := 1%Z.
Definition Second : Duration := 1000000000%Z.

Definition Time_Add (t : Time) (d : Duration) : Time := (t + d)%Z.
Definition Time_IsZero (t : Time) : bool := (t =? 0)%Z.

(** * The retention decision *)
Module Cleaner.

(** [gcrgoogle.ManifestInfo] and [manifest], with the fields the test
    [TestShouldDelete] fills in. *)
Record ManifestInfo : Type := mkManifestInfo {
  Created : Time;
  Uploaded : Time;
  Tags : list string
}.

Record manifest : Type := mkManifest {
  Repo : string;
  Digest : string;
  Info : ManifestInfo
}.

(** Modelled from the spec: the effective timestamp of a manifest,
    "uploadedAt, else createdAt" (section 4.3, check 6); the function lives
    in cleaner.go, which is missing.  A [time.Time] that is not set is the
    zero time. *)
Definition effectiveTimestamp (m : manifest) : Time :=
  if Time_IsZero (Uploaded (Info m)) then Created (Info m)
  else Uploaded (Info m).

(** Modelled from the spec: a filter is "configured" when it is not the
    Null variant (section 4.3, checks 2 and 7). *)
Definition configured (f : ItemFilter.t) : bool :=
  match f with
  | ItemFilter.ItemFilterNull => false
  | _ => true
  end.

(** Modelled from the spec: [Cleaner.shouldDelete] is defined in
    cleaner.go, which is missing; only its test [TestShouldDelete] is
    present.  The body follows section 4.3, one early return per check, in
    the order the section fixes. *)
Definition shouldDelete {A} `{PodFilter A} (m : manifest) (since : Time)
    (repoSkipFilter repoPrefixFilter repoKeepFilter
     tagFilter tagKeepFilter : ItemFilter.t) (podFilter : A) : bool :=
  (* 1 *)
  if ItemFilter.Matches repoSkipFilter [Repo m] then false
  (* 2 *)
  else if configured repoPrefixFilter
          && negb (ItemFilter.Matches repoPrefixFilter [Repo m]) then false
  (* 3 *)
  else if ItemFilter.Matches repoKeepFilter [Repo m] then false
  (* 4 *)
  else if pf_Matches podFilter (Repo m) (Digest m) (Tags (Info m)) then false
  (* 5 *)
  else if ItemFilter.Matches tagKeepFilter (Tags (Info m)) then false
  (* 6 *)
  else if (since <=? effectiveTimestamp m)%Z then false
  (* 7 *)
  else if configured tagFilter
          && negb (ItemFilter.Matches tagFilter (Tags (Info m))) then false
  (* 8 *)
  else true.

End Cleaner.

(** * The idempotency cache *)
Module Cache.

(** Modelled from the spec: the interface [Cache] ([Insert(string) bool])
    is implemented in cache.go, which is missing.  Section 4.5: [Insert] is
    an atomic check-and-set that returns true if the key was already
    present and false if it was newly inserted.  The state of the cache is
    the set of keys it holds; [Insert] returns the answer and the cache
    after the call. *)
Definition Insert (c : gset string) (key : string) : bool * gset string :=
  (bool_decide (key ∈ c), {[key]} ∪ c).

(** Modelled from the spec: eviction (section 4.5 leaves the policy open).
    A key that reaches the end of its retention horizon is dropped. *)
Definition Expire (c : gset string) (key : string) : gset string :=
  c ∖ {[key]}.

End Cache.

(** * server.go *)

(** [sort.Strings]: sorting by the order [<=] of Go strings, which compares
    byte by byte. *)
Definition string_le : relation string :=
  fun s1 s2 => String.leb s1 s2 = true.

#[global] Instance string_le_dec : RelDecision string_le.
Proof. intros s1 s2. unfold string_le. apply _. Defined.

Definition sort_Strings (l : list string) : list string :=
  merge_sort string_le l.

(** ** int64 and float64 *)
Definition int64_min : Z := (- 2 ^ 63)%Z.
Definition int64_max : Z := (2 ^ 63 - 1)%Z.

Definition in_int64 (z : Z) : bool :=
  ((int64_min <=? z) && (z <=? int64_max))%Z.

(** Two's-complement wrap-around of int64 arithmetic. *)
Definition wrap_int64 (z : Z) : Z :=
  ((z - int64_min) mod 2 ^ 64 + int64_min)%Z.

(** A float64 is a [spec_float] (sign, mantissa, exponent: the value of
    [S754_finite s m e] is [(-1)^s * m * 2^e]).  [float64_trunc] discards the
    fraction (truncation towards zero), as the conversion of a float to an
    integer does. *)
Definition float64_trunc (val : SpecFloat.spec_float) : option Z :=
  match val with
  | SpecFloat.S754_zero _ => Some 0%Z
  | SpecFloat.S754_finite s m e =>
      let magnitude := Z.shiftl (Zpos m) e in
      Some (if s then (- magnitude)%Z else magnitude)
  | SpecFloat.S754_infinity _ | SpecFloat.S754_nan => None
  end.

(** The float64 nearest to an integer. *)
Definition float64_of_Z (z : Z) : SpecFloat.spec_float :=
  SpecFloat.binary_normalize 53 1024 z 0 false.

Module Server.

(** What [json.Unmarshal(b, &v)] stores in [v any]: a float64 for a JSON
    number, a string for a JSON string; [JOther] stands for the remaining
    dynamic types (bool, nil, []any, map[string]any) and carries the type's
    name. *)
Inductive jsonAny : Type :=
| JFloat64 (val : SpecFloat.spec_float)
| JString (val : string)
| JOther (typeName : string).

(** [Payload]. *)
Record Payload : Type := mkPayload {
  Repos : list string;
  Grace : Duration;
  Keep : Z;
  RepoKeepFilterAny : string;
  RepoMatchPrefixFilter : string;
  TagFilterAny : string;
  TagFilterAll : string;
  TagKeepAny : string;
  DryRun : bool;
  Recursive : bool
}.

(** [pubsubMessage]. *)
Record pubsubMessage_Message : Type := mkMessage {
  Data : list Byte.byte;
  ID : string
}.

Record pubsubMessage : Type := mkPubsubMessage {
  Message : pubsubMessage_Message;
  Subscription : string
}.

(** [cleanResp] and [errorResp]. *)
Record cleanResp : Type := mkCleanResp {
  Count : nat;
  Refs : list string;
  RefsByRepo : gmap string (list string)
}.

Record errorResp : Type := mkErrorResp {
  Error : error
}.

(** What a handler writes to its [http.ResponseWriter]: a status, and a
    JSON body or none. *)
Inductive responseBody : Type :=
| NoBody
| ErrorBody (b : errorResp)
| CleanBody (b : cleanResp).

Record response : Type := mkResponse {
  status : Z;
  body : responseBody
}.

Definition StatusOK : Z := 200%Z.
Definition StatusBadRequest : Z := 400%Z.
Definition StatusInternalServerError : Z := 500%Z.

(** [handleError]: [json.Marshal] of an [errorResp] does not fail. *)
Definition handleError (err : error) (status : Z) : response :=
  {| status := status; body := ErrorBody {| Error := err |} |}.

Definition WriteHeader (status : Z) : response :=
  {| status := status; body := NoBody |}.

(** A row read from the BigQuery iterator: [Next] fails, or yields a row
    whose first value is a string or something else. *)
Inductive bigqueryValue : Type :=
| BQString (s : string)
| BQOther (repr : string).

Inductive rowResult : Type :=
| RowError (err : error)
| RowValues (first : bigqueryValue).

(** ** The decoding of [duration] *)
Section Duration.

(** [time.ParseDuration]. *)
Variable ParseDuration : string -> result Duration.

(** The int64 a float64 converts to when the truncated value is not an
    int64: the conversion succeeds and its result depends on the
    implementation. *)
Variable convert_out_of_range : SpecFloat.spec_float -> Z.

(** [time.Duration(val)] for [val float64]. *)
Definition Duration_of_float64 (val : SpecFloat.spec_float) : Duration :=
  match float64_trunc val with
  | Some z => if in_int64 z then z else convert_out_of_range val
  | None => convert_out_of_range val
  end.

(** [duration.UnmarshalJSON], from the outcome of [json.Unmarshal(b, &v)]
    on. *)
Definition duration_UnmarshalJSON (v : result jsonAny) : result Duration :=
  match v with
  | Err err => Err err
  | Ok (JFloat64 val) => Ok (Duration_of_float64 val)
  | Ok (JString val) =>
      match ParseDuration val with
      | Err err => Err err
      | Ok s => Ok s
      end
  | Ok (JOther typeName) => Err (Errorf "invalid duration type %T" [typeName])
  end.

End Duration.

(** ** The cutoff *)

(** [sub := time.Duration(p.Grace); if p.Grace > 0 { sub = sub * -1 }]. *)
Definition clean_sub (Grace : Duration) : Duration :=
  let sub := Grace in
  if (0 <? Grace)%Z then wrap_int64 (sub * -1) else sub.

(** [since := time.Now().UTC().Add(sub)]. *)
Definition clean_since (now : Time) (Grace : Duration) : Time :=
  Time_Add now (clean_sub Grace).

(** ** The collaborators of [clean]

    What [clean] calls outside this file.  [World] is the state of the
    registry, which [Cleaner.Clean] changes and
    [Cleaner.ListChildRepositories] reads; both are defined in cleaner.go. *)
Record Externals (World : Type) : Type := mkExternals {
  (** [regexp.Compile] *)
  Compile : string -> result Regexp;
  (** [gcrname.ParseReference] *)
  ParseReference : string -> result Reference;
  (** [strings.TrimSpace] *)
  TrimSpace : string -> string;
  (** [google.FindDefaultCredentials]: the project ID of the credentials *)
  FindDefaultCredentials : result string;
  (** [bigquery.NewClient], from the project ID *)
  bigquery_NewClient : string -> option error;
  (** [query.Read] and the rows its iterator then yields, up to
      [iterator.Done] *)
  query_Read : result (list rowResult);
  (** [s.cleaner.ListChildRepositories] *)
  ListChildRepositories : World -> list string -> result (list string);
  (** [s.cleaner.Clean(ctx, repo, since, keep, repoKeepFilter,
      repoPrefixFilter, tagFilter, tagKeepFilter, podFilter, dryRun)] *)
  Clean : World -> string -> Time -> Z ->
          ItemFilter.t -> ItemFilter.t -> ItemFilter.t -> ItemFilter.t ->
          AssetPodFilter.t -> bool -> World * result (list string);
  (** the order in which [range] visits the entries of a map *)
  map_range : gmap string (list string) -> list (string * list string)
}.
Arguments Compile {World} _ _.
Arguments ParseReference {World} _ _.
Arguments TrimSpace {World} _ _.
Arguments FindDefaultCredentials {World} _.
Arguments bigquery_NewClient {World} _ _.
Arguments query_Read {World} _.
Arguments ListChildRepositories {World} _ _ _.
Arguments Clean {World} _ _ _ _ _ _ _ _ _ _ _.
Arguments map_range {World} _ _.

(** [range] over a map visits every entry once, in an order that is not
    specified. *)
Definition map_range_ok {World} (E : Externals World) : Prop :=
  ∀ m, map_range E m ≡ₚ map_to_list m.

(** [if err != nil { return ... }]. *)
Definition orReturn {A R} (r : result A) (onErr : error -> R) (k : A -> R)
    : R :=
  match r with
  | Ok v => k v
  | Err err => onErr err
  end.

Notation "'let?' x ':=' r 'else' h 'in' k" :=
  (orReturn r h (fun x => k))
  (at level 10, x pattern, r at level 100, h at level 100, k at level 200,
   only parsing).

Section Handlers.

Context {World : Type}.
Variable E : Externals World.

(** The three results of [clean]: the map (nil is the empty map), the
    status and the error ([None] is nil). *)
Definition cleanReturn : Type :=
  (gmap string (list string) * Z * option error)%type.

Definition fail (w : World) (status : Z) (err : error)
    : World * cleanReturn :=
  (w, (∅, status, Some err)).

(** [for _, v := range p.Repos { if t := strings.TrimSpace(v); t != ""
    { repos = append(repos, t) } }]. *)
Fixpoint gather (repos : list string) (Repos : list string) : list string :=
  match Repos with
  | [] => repos
  | v :: rest =>
      let t := TrimSpace E v in
      if ItemFilter.nonempty t then gather (repos ++ [t]) rest
      else gather repos rest
  end.

(** The loop over the rows of the query. *)
Fixpoint rows_range (podFilter : AssetPodFilter.t) (rows : list rowResult)
    : result AssetPodFilter.t :=
  match rows with
  | [] => Ok podFilter
  | RowError err :: _ =>
      Err (ErrorfW "failed to read row from BigQuery: %w" [] err)
  | RowValues (BQOther repr) :: _ =>
      Err (Errorf "failed to parse row from BigQuery: %v" [repr])
  | RowValues (BQString image) :: rest =>
      match AssetPodFilter.Add (ParseReference E) podFilter image with
      | (_, Some err) =>
          Err (ErrorfW "failed to parse container image: %w" [] err)
      | (podFilter', None) => rows_range podFilter' rest
      end
  end.

(** The deletion loop, [for _, repo := range repos { ... }]. *)
Fixpoint delete_range (since : Time) (p : Payload)
    (repoKeepFilter repoPrefixFilter tagFilter tagKeepFilter : ItemFilter.t)
    (podFilter : AssetPodFilter.t)
    (w : World) (deleted : gmap string (list string)) (repos : list string)
    : World * cleanReturn :=
  match repos with
  | [] => (w, (deleted, StatusOK, None))
  | repo :: rest =>
      let '(w', r) :=
        Clean E w repo since (Keep p) repoKeepFilter repoPrefixFilter
              tagFilter tagKeepFilter podFilter (DryRun p) in
      match r with
      | Err err =>
          fail w' StatusBadRequest
               (ErrorfW "failed to clean repo %q: %w" [repo] err)
      | Ok childrenDeleted =>
          let deleted' :=
            if (0 <? length childrenDeleted)%nat then
              <[repo := default [] (deleted !! repo) ++ childrenDeleted]>
                deleted
            else deleted in
          delete_range since p repoKeepFilter repoPrefixFilter tagFilter
                       tagKeepFilter podFilter w' deleted' rest
      end
  end.

(** The calls to [Clean] the deletion loop makes that return no error,
    in order, each with the repository it was made for and the references
    it reports deleted. *)
Fixpoint delete_calls (since : Time) (p : Payload)
    (repoKeepFilter repoPrefixFilter tagFilter tagKeepFilter : ItemFilter.t)
    (podFilter : AssetPodFilter.t)
    (w : World) (repos : list string) : list (string * list string) :=
  match repos with
  | [] => []
  | repo :: rest =>
      let '(w', r) :=
        Clean E w repo since (Keep p) repoKeepFilter repoPrefixFilter
              tagFilter tagKeepFilter podFilter (DryRun p) in
      match r with
      | Err _ => []
      | Ok childrenDeleted =>
          (repo, childrenDeleted)
          :: delete_calls since p repoKeepFilter repoPrefixFilter tagFilter
                          tagKeepFilter podFilter w' rest
      end
  end.

(** [Server.clean], from the outcome of decoding the body into a
    [Payload] on; [now] is what [time.Now().UTC()] returns.  Calls to the
    logger are left out. *)
Definition clean (w : World) (now : Time) (decoded : result Payload)
    : World * cleanReturn :=
  let? p := decoded
    else (fun err => fail w 500
            (ErrorfW "failed to decode payload as JSON: %w" [] err)) in
  let since := clean_since now (Grace p) in
  let? repoKeepFilter :=
    ItemFilter.BuildItemFilter (Compile E) (RepoKeepFilterAny p) ""
    else (fun err => fail w StatusBadRequest
            (ErrorfW "failed to build repo keep filter: %w" [] err)) in
  let? repoPrefixFilter :=
    ItemFilter.BuildItemFilter (Compile E) (RepoMatchPrefixFilter p) ""
    else (fun err => fail w StatusBadRequest
            (ErrorfW "failed to build repo prefix filter: %w" [] err)) in
  let? tagFilter :=
    ItemFilter.BuildItemFilter (Compile E) (TagFilterAny p) (TagFilterAll p)
    else (fun err => fail w StatusBadRequest
            (ErrorfW "failed to build tag filter: %w" [] err)) in
  let? tagKeepFilter :=
    ItemFilter.BuildItemFilter (Compile E) (TagKeepAny p) ""
    else (fun err => fail w StatusBadRequest
            (ErrorfW "failed to build tag keep filter: %w" [] err)) in
  let? ProjectID := FindDefaultCredentials E
    else (fun err => fail w StatusInternalServerError
            (ErrorfW "failed to get default credentials: %w" [] err)) in
  let repos := gather [] (Repos p) in
  let podFilter := AssetPodFilter.NewAssetPodFilter repos in
  match bigquery_NewClient E ProjectID with
  | Some err =>
      fail w StatusInternalServerError
           (ErrorfW "failed to create new BigQuery client: %w" [] err)
  | None =>
  let? rows := query_Read E
    else (fun err => fail w StatusInternalServerError
            (ErrorfW "failed to get query results from BigQuery: %w" []
                     err)) in
  let? podFilter := rows_range podFilter rows
    else (fun err => fail w StatusInternalServerError err) in
  let? repos :=
    (if Recursive p then ListChildRepositories E w repos else Ok repos)
    else (fun err => fail w StatusBadRequest
            (ErrorfW "failed to list child repositories: %w" [] err)) in
  delete_range since p repoKeepFilter repoPrefixFilter tagFilter
               tagKeepFilter podFilter w ∅ repos
  end.

(** [for _, v := range deleted { refs = append(refs, v...) }]. *)
Fixpoint refs_range (refs : list string)
    (entries : list (string * list string)) : list string :=
  match entries with
  | [] => refs
  | (_, v) :: rest => refs_range (refs ++ v) rest
  end.

(** [Server.HTTPHandler]; [json.Marshal] of a [cleanResp] does not
    fail. *)
Definition HTTPHandler (w : World) (now : Time) (decoded : result Payload)
    : World * response :=
  let '(w', (deleted, status, err)) := clean w now decoded in
  match err with
  | Some err => (w', handleError err status)
  | None =>
      let refs := refs_range [] (map_range E deleted) in
      let refs := sort_Strings refs in
      (w', {| status := 200;
              body := CleanBody {| Count := size deleted;
                                   Refs := refs;
                                   RefsByRepo := deleted |} |})
  end.

End Handlers.

(** The references a sequence of calls reports deleted for a
    repository. *)
Definition deleted_in (calls : list (string * list string)) (repo : string)
    : list string :=
  concat (snd <$> filter (fun call => fst call = repo) calls).

(** ** The asynchronous path *)

(** What the handlers of pubsub requests share: the cache, and the bodies
    handed to the goroutines started so far ([go func() { s.clean(ctx,
    body) }()]), oldest first.  A handler touches the cache in one call of
    [Insert], which is atomic, so handlers that run at the same time are
    taken one after the other, in the order of their calls of [Insert]. *)
Record pubsubState : Type := mkPubsubState {
  cache : gset string;
  background : list (list Byte.byte)
}.

(** [msgID := m.Subscription + "/" + m.Message.ID]. *)
Definition msgID (m : pubsubMessage) : string :=
  Subscription m +:+ "/" +:+ ID (Message m).

(** The handler [Server.PubSubHandler] returns, from the outcome of
    decoding the request body into a [pubsubMessage] on. *)
Definition PubSubHandler (st : pubsubState) (decoded : result pubsubMessage)
    : pubsubState * response :=
  match decoded with
  | Err err =>
      (st, handleError (ErrorfW "failed to decode pubsub message: %w" [] err)
                       400)
  | Ok m =>
      let msgID := msgID m in
      let '(exists_, cache') := Cache.Insert (cache st) msgID in
      let st' := {| cache := cache'; background := background st |} in
      if exists_ then (st', WriteHeader 204)
      else if (length (Data (Message m)) =? 0)%nat then
        (st', handleError (Errorf "missing data in pubsub payload" []) 400)
      else
        let body := Data (Message m) in
        ({| cache := cache'; background := background st ++ [body] |},
         WriteHeader 204)
  end.

(** What happens to the asynchronous path over time: a request arrives, or
    the cache drops a key. *)
Inductive event : Type :=
| Request (decoded : result pubsubMessage)
| Expired (key : string).

Definition step (st : pubsubState) (ev : event)
    : pubsubState * option response :=
  match ev with
  | Request decoded =>
      let '(st', resp) := PubSubHandler st decoded in (st', Some resp)
  | Expired key =>
      ({| cache := Cache.Expire (cache st) key;
          background := background st |}, None)
  end.

Fixpoint run (st : pubsubState) (evs : list event) : pubsubState :=
  match evs with
  | [] => st
  | ev :: rest => run (fst (step st ev)) rest
  end.

(** ** The decoding of [sortedStringSlice] *)

(** What [json.Unmarshal(b, &v)] stores in [v any], as far as
    [sortedStringSlice.UnmarshalJSON] tells values apart: a string, a
    [[]any] whose elements are strings or something else, a [[]string], or
    a value of another dynamic type, which carries the type's name. *)
Inductive anyElem : Type :=
| ElemString (s : string)
| ElemOther (typeName : string).

Inductive anyList : Type :=
| AString (val : string)
| ASliceAny (val : list anyElem)
| ASliceString (val : list string)
| AOther (typeName : string).

Section SortedStringSlice.

(** [strings.TrimSpace]. *)
Variable TrimSpace : string -> string.

(** The order in which [range] visits the keys of the map
    [m map[string]struct{}], which is a set of strings. *)
Variable keys_range : gset string -> list string.

(** [if t := strings.TrimSpace(v); t != "" { m[t] = struct{}{} }]. *)
Definition add_trimmed (m : gset string) (v : string) : gset string :=
  let t := TrimSpace v in
  if ItemFilter.nonempty t then {[t]} ∪ m else m.

(** The loop of the case [[]any], from index [i] on. *)
Fixpoint anys_range (m : gset string) (i : nat) (val : list anyElem)
    : result (gset string) :=
  match val with
  | [] => Ok m
  | ElemOther typeName :: _ =>
      Err (Errorf "list must contain only strings (got %T at index %d)"
                  [typeName; pretty i])
  | ElemString s :: rest => anys_range (add_trimmed m s) (S i) rest
  end.

(** The loop of the case [[]string]. *)
Fixpoint strings_range (m : gset string) (val : list string) : gset string :=
  match val with
  | [] => m
  | v :: rest => strings_range (add_trimmed m v) rest
  end.

(** [sortedStringSlice.UnmarshalJSON], from the outcome of
    [json.Unmarshal(b, &v)] on; the result is what [*s] is set to. *)
Definition sortedStringSlice_UnmarshalJSON (v : result anyList)
    : result (list string) :=
  let? v := v else (fun err => Err err) in
  let m : gset string := ∅ in
  let? m :=
    match v with
    | AString val => Ok (add_trimmed m val)
    | ASliceAny val => anys_range m 0 val
    | ASliceString val => Ok (strings_range m val)
    | AOther typeName => Err (Errorf "invalid list type %T" [typeName])
    end
    else (fun err => Err err) in
  let list := keys_range m in
  Ok (sort_Strings list).

End SortedStringSlice.

(** [range] over the set visits every key once, in an order that is not
    specified. *)
Definition keys_range_ok (keys_range : gset string -> list string) : Prop :=
  ∀ m, keys_range m ≡ₚ elements m.

(** The strings a decoded value offers to [sortedStringSlice]. *)
Definition offered (v : anyList) : list string :=
  match v with
  | AString val => [val]
  | ASliceAny val =>
      omap (fun e => match e with
                     | ElemString s => Some s
                     | ElemOther _ => None
                     end) val
  | ASliceString val => val
  | AOther _ => []
  end.

(** A string that [sortedStringSlice] keeps from a list of strings: one
    of them trimmed, and not empty. *)
Definition kept (TrimSpace : string -> string) (t : string)
    (strings : list string) : Prop :=
  t ≠ "" ∧ ∃ v, v ∈ strings ∧ TrimSpace v = t.

(** Some managed repository is a prefix of the reference. *)
Definition managed (repos : list string) (image : string) : Prop :=
  ∃ repo, repo ∈ repos ∧ ∃ rest, image = repo +:+ rest.

(** A stored identifier that makes [Matches] answer true for a digest and
    a list of tags. *)
Definition identifies (identifier digest : string) (tags : list string)
    : Prop :=
  identifier ≠ ""
  ∧ ((∃ rest, digest = identifier +:+ rest) ∨ identifier ∈ tags).

(** A row the ingestion loop of [clean] goes past: its first value is a
    string that names no managed repository or parses as a reference. *)
Definition row_accepted (ParseReference : string -> result Reference)
    (repos : list string) (row : rowResult) : bool :=
  match row with
  | RowValues (BQString image) =>
      negb (AssetPodFilter.repos_range image repos)
      || match ParseReference image with Ok _ => true | Err _ => false end
  | _ => false
  end.

(** What [clean] has in hand when it enters the deletion loop: the four
    filters built from the payload, the index ingested from the rows of the
    query, and the repositories to clean, which are those of the payload,
    trimmed, or all that [ListChildRepositories] lists from them. *)
Definition prepared {World} (E : Externals World) (w : World) (p : Payload)
    (repoKeepFilter repoPrefixFilter tagFilter tagKeepFilter : ItemFilter.t)
    (podFilter : AssetPodFilter.t) (repos : list string) : Prop :=
  ItemFilter.BuildItemFilter (Compile E) (RepoKeepFilterAny p) ""
  = Ok repoKeepFilter
  ∧ ItemFilter.BuildItemFilter (Compile E) (RepoMatchPrefixFilter p) ""
    = Ok repoPrefixFilter
  ∧ ItemFilter.BuildItemFilter (Compile E) (TagFilterAny p) (TagFilterAll p)
    = Ok tagFilter
  ∧ ItemFilter.BuildItemFilter (Compile E) (TagKeepAny p) ""
    = Ok tagKeepFilter
  ∧ (∃ ProjectID rows,
       FindDefaultCredentials E = Ok ProjectID
       ∧ bigquery_NewClient E ProjectID = None
       ∧ query_Read E = Ok rows
       ∧ rows_range E
           (AssetPodFilter.NewAssetPodFilter (gather E [] (Repos p))) rows
         = Ok podFilter)
  ∧ (if Recursive p
     then ListChildRepositories E w (gather E [] (Repos p))
     else Ok (gather E [] (Repos p))) = Ok repos.

End Server.

(** * Concrete collaborators

    Small stand-ins for the libraries, on the fragment of their inputs where
    what they do is plain; the properties below are proved for every
    collaborator and evaluated on these. *)
Module Sample.

(** [contains sub s]: [sub] occurs in [s]. *)
Fixpoint contains (sub s : string) : bool :=
  String.prefix sub s ||
  match s with
  | EmptyString => false
  | String _ rest => contains sub rest
  end.

(** Characters that stand for themselves in a regular expression. *)
Definition plain (c : ascii) : bool :=
  let n := nat_of_ascii c in
  ((48 <=? n) && (n <=? 57) || (65 <=? n) && (n <=? 90)
   || (97 <=? n) && (n <=? 122) || (n =? 45) || (n =? 95) || (n =? 47))%nat.

Fixpoint all_plain (s : string) : bool :=
  match s with
  | EmptyString => true
  | String c rest => plain c && all_plain rest
  end.

(** [regexp.Compile] on patterns made of plain characters, which match the
    strings they occur in; every other pattern is turned down. *)
Definition Compile (expr : string) : result Regexp :=
  if all_plain expr then
    Ok {| re_String := expr; MatchString := contains expr |}
  else Err (ExternalError "error parsing regexp").

(** [s] starts with [pat], where a dot in [pat] stands for any character
    but the newline. *)
Fixpoint prefix_dots (pat s : string) : bool :=
  match pat, s with
  | EmptyString, _ => true
  | String _ _, EmptyString => false
  | String p pat', String c s' =>
      (if Ascii.eqb p "." then negb (Ascii.eqb c "010") else Ascii.eqb p c)
      && prefix_dots pat' s'
  end.

(** The compiled form of [^pat.*], for a [pat] of plain characters and
    dots: the strings that start with [pat]. *)
Definition starts_with (pat : string) : Regexp :=
  {| re_String := "^" +:+ pat +:+ ".*"; MatchString := prefix_dots pat |}.

(** The compiled form of [pat.*] and of [pat], for a [pat] of plain
    characters: the strings [pat] occurs in. *)
Definition occurs (expr pat : string) : Regexp :=
  {| re_String := expr; MatchString := contains pat |}.

Fixpoint split_colon (s : string) : option (string * string) :=
  match s with
  | EmptyString => None
  | String c rest =>
      if Ascii.eqb c ":" then Some (EmptyString, rest)
      else match split_colon rest with
           | Some (before, after) => Some (String c before, after)
           | None => None
           end
  end.

(** [gcrname.ParseReference] on references of the form
    [registry/repository:tag]; every other string is turned down. *)
Definition ParseReference (image : string) : result Reference :=
  match split_colon image with
  | Some (repo, tag) =>
      if ItemFilter.nonempty repo && ItemFilter.nonempty tag then
        Ok {| Context_String := repo; Identifier := tag |}
      else Err (ExternalError "could not parse reference")
  | None => Err (ExternalError "could not parse reference")
  end.

(** [strings.TrimSpace] on strings of bytes below 128: the white space at
    both ends is dropped (space, tab, newline, vertical tab, form feed,
    carriage return). *)
Definition is_space (c : ascii) : bool :=
  let n := nat_of_ascii c in ((n =? 32) || (9 <=? n) && (n <=? 13))%nat.

Fixpoint trim_left (s : string) : string :=
  match s with
  | EmptyString => EmptyString
  | String c rest => if is_space c then trim_left rest else s
  end.

Definition TrimSpace (s : string) : string :=
  String.rev (trim_left (String.rev (trim_left s))).

(** [time.ParseDuration] on the strings ["1s"] and ["1h"]. *)
Definition ParseDuration (s : string) : result Duration :=
  if String.eqb s "1s" then Ok Second
  else if String.eqb s "1h" then Ok (3600 * Second)%Z
  else Err (ExternalError "time: invalid duration").

(** A registry that holds, for each repository, the references a cleaning
    run deletes there; [Clean] deletes them all and reports them. *)
Definition Clean (w : gmap string (list string)) (repo : string)
    (since : Time) (keep : Z)
    (repoKeepFilter repoPrefixFilter tagFilter tagKeepFilter : ItemFilter.t)
    (podFilter : AssetPodFilter.t) (dryRun : bool)
    : gmap string (list string) * result (list string) :=
  match w !! repo with
  | Some refs => (if dryRun then w else delete repo w, Ok refs)
  | None => (w, Err (ExternalError "failed to list manifests"))
  end.

Definition externals : Server.Externals (gmap string (list string)) :=
  {| Server.Compile := Compile;
     Server.ParseReference := ParseReference;
     Server.TrimSpace := fun s => s;
     Server.FindDefaultCredentials := Ok "project";
     Server.bigquery_NewClient := fun _ => None;
     Server.query_Read :=
       Ok [Server.RowValues (Server.BQString "gcr.io/p/app:live")];
     Server.ListChildRepositories := fun _ repos => Ok repos;
     Server.Clean := Clean;
     Server.map_range := map_to_list |}.

Definition payload (repos : list string) : Server.Payload :=
  {| Server.Repos := repos; Server.Grace := 0%Z; Server.Keep := 0%Z;
     Server.RepoKeepFilterAny := ""; Server.RepoMatchPrefixFilter := "";
     Server.TagFilterAny := ""; Server.TagFilterAll := "";
     Server.TagKeepAny := ""; Server.DryRun := false;
     Server.Recursive := false |}.

(** A payload that sets both tag filters. *)
Definition payload_both (repos : list string) : Server.Payload :=
  {| Server.Repos := repos; Server.Grace := 0%Z; Server.Keep := 0%Z;
     Server.RepoKeepFilterAny := ""; Server.RepoMatchPrefixFilter := "";
     Server.TagFilterAny := "beta"; Server.TagFilterAll := "rc";
     Server.TagKeepAny := ""; Server.DryRun := false;
     Server.Recursive := false |}.

Definition registry : gmap string (list string) :=
  <["gcr.io/p/app" := ["v2"; "v1"]]>
    (<["gcr.io/p/db" := []]> (<["gcr.io/p/web" := ["b"]]> ∅)).

End Sample.

(** * The table of [TestShouldDelete] *)
Module TestShouldDelete.

(** [time.Date(year, month, day, 0, 0, 0, 0, time.UTC)], from the number
    of days between the zero time and that day. *)
Definition midnight (days : Z) : Time := (days * 86400 * Second)%Z.

Definition Oct_1 : Time := midnight 738793.
Definition Oct_10 : Time := midnight 738802.
Definition Nov_1 : Time := midnight 738824.
Definition Nov_5 : Time := midnight 738828.
Definition Nov_16 : Time := midnight 738839.

Definition since : Time := Nov_1.

Definition row (repo digest : string) (created uploaded : Time)
    (tags : list string) : Cleaner.manifest :=
  {| Cleaner.Repo := repo; Cleaner.Digest := digest;
     Cleaner.Info := {| Cleaner.Created := created;
                        Cleaner.Uploaded := uploaded;
                        Cleaner.Tags := tags |} |}.

Definition tests : list (Cleaner.manifest * bool) :=
  [ (row "gcr.io/example/repo" "digest1" Oct_1 Oct_10 ["delete-1"], true);
    (row "gcr.io/example/repo" "digest2" Nov_5 Nov_16 ["main2"], false);
    (row "gcr.io/example/repo" "digest3" Nov_5 Nov_16 ["main3"], false);
    (row "gcr.io/other-repo" "digest4" Oct_1 Oct_10 ["main4"], false);
    (row "gcr.io/example/repo" "digest5" Oct_1 Oct_10 ["other-tag"], false);
    (row "gcr.io/other-repo" "digest6" Oct_1 Oct_10 ["other-tag"], false);
    (row "gcr.io/example/repo" "digest7" Oct_1 Oct_10 ["delete7"], true);
    (row "gcr.io/example/repo" "digest8" Oct_1 Oct_10 ["delete8"], true);
    (row "gcr.io/example/repo" "digest9" Oct_1 Oct_10 ["main9"], false) ].

Definition repoPrefixFilter : ItemFilter.t :=
  ItemFilter.ItemFilterAny (Some (Sample.starts_with "gcr.io.example")).
Definition tagFilter : ItemFilter.t :=
  ItemFilter.ItemFilterAny (Some (Sample.occurs "delete.*" "delete")).
Definition repoSkipFilter : ItemFilter.t :=
  ItemFilter.ItemFilterAny (Some (Sample.occurs "other-repo" "other-repo")).
Definition tagKeepFilter : ItemFilter.t :=
  ItemFilter.ItemFilterAny (Some (Sample.starts_with "main")).

(** The call of the test; the test has no repository keep filter of its
    own, which is the Null filter here. *)
Definition actualToDelete (m : Cleaner.manifest) : bool :=
  @Cleaner.shouldDelete unit mockPodFilter m since repoSkipFilter
    repoPrefixFilter ItemFilter.ItemFilterNull tagFilter tagKeepFilter tt.

End TestShouldDelete.

(** * Properties of the item filters *)

Lemma nonempty_true (s : string) : ItemFilter.nonempty s = true ↔ s ≠ "".
Proof.
  unfold ItemFilter.nonempty. rewrite negb_true_iff. apply String.eqb_neq.
Qed.

Lemma nonempty_false (s : string) : ItemFilter.nonempty s = false ↔ s = "".
Proof.
  unfold ItemFilter.nonempty. rewrite negb_false_iff. apply String.eqb_eq.
Qed.

Lemma any_range_true (re : Regexp) (tags : list string) :
  ItemFilter.any_range re tags = true ↔
  ∃ t, t ∈ tags ∧ MatchString re t = true.
Proof.
  induction tags as [|t tags IH]; simpl.
  - split; [discriminate | intros (t & Hin & _); inversion Hin].
  - destruct (MatchString re t) eqn:Ht.
    + split; [intros _; exists t; split; [left | done] | done].
    + rewrite IH. split.
      * intros (t' & Hin & Ht'). exists t'. split; [by right | done].
      * intros (t' & Hin & Ht'). inversion Hin; subst; [congruence|].
        by exists t'.
Qed.

Lemma all_range_true (re : Regexp) (tags : list string) :
  ItemFilter.all_range re tags = true ↔
  ∀ t, t ∈ tags → MatchString re t = true.
Proof.
  induction tags as [|t tags IH]; simpl.
  - split; [intros _ t Hin; inversion Hin | done].
  - destruct (MatchString re t) eqn:Ht; simpl.
    + rewrite IH. split.
      * intros Hall t' Hin. inversion Hin; subst; auto.
      * intros Hall t' Hin. apply Hall. by right.
    + split; [discriminate|]. intros Hall.
      rewrite <- Ht. apply Hall. left.
Qed.

Section ItemFilterFacts.

Variable Compile : string -> result Regexp.

Lemma BuildItemFilter_Ok_variant (any all : string) (f : ItemFilter.t) :
  ItemFilter.BuildItemFilter Compile any all = Ok f →
  f = ItemFilter.ItemFilterNull
  ∨ (∃ r, f = ItemFilter.ItemFilterAny (Some r))
  ∨ (∃ r, f = ItemFilter.ItemFilterAll (Some r)).
Proof.
  unfold ItemFilter.BuildItemFilter.
  destruct (ItemFilter.nonempty any), (ItemFilter.nonempty all); simpl;
    try discriminate.
  - destruct (Compile any); [|discriminate]. intros [= <-]. eauto.
  - destruct (Compile all); [|discriminate]. intros [= <-]. eauto.
  - intros [= <-]. eauto.
Qed.

(** C3. Of the three filters [BuildItemFilter] produces: the Null filter
    matches no list, the empty one included; the Any filter holds a
    regular expression, does not match the empty list, and matches a list
    exactly when some element matches the expression; the All filter
    holds a regular expression, matches the empty list, and matches a
    list exactly when every element matches the expression. *)
Theorem Matches_variants (any all : string) (f : ItemFilter.t) :
  ItemFilter.BuildItemFilter Compile any all = Ok f →
  match f with
  | ItemFilter.ItemFilterNull =>
      ∀ tags, ItemFilter.Matches f tags = false
  | ItemFilter.ItemFilterAny re =>
      ∃ r, re = Some r
        ∧ ItemFilter.Matches f [] = false
        ∧ ∀ tags, ItemFilter.Matches f tags = true ↔
                  ∃ t, t ∈ tags ∧ MatchString r t = true
  | ItemFilter.ItemFilterAll re =>
      ∃ r, re = Some r
        ∧ ItemFilter.Matches f [] = true
        ∧ ∀ tags, ItemFilter.Matches f tags = true ↔
                  ∀ t, t ∈ tags → MatchString r t = true
  end.
Proof.
  intros Hbuild.
  destruct (BuildItemFilter_Ok_variant _ _ _ Hbuild)
    as [-> | [[r ->] | [r ->]]].
  - done.
  - exists r. split; [done|]. split; [done|].
    intros tags. apply any_range_true.
  - exists r. split; [done|]. split; [done|].
    intros tags. apply all_range_true.
Qed.

Lemma BuildItemFilter_both (any all : string) :
any ≠ "" → all ≠ "" →
ItemFilter.BuildItemFilter Compile any all
= Err (Errorf "only one tag filter type may be specified" []).
Proof.
intros Hany%nonempty_true Hall%nonempty_true.
unfold ItemFilter.BuildItemFilter. by rewrite Hany, Hall.
Qed.

(** C4. [BuildItemFilter] on two non-empty patterns returns the
    configuration error and no filter, whatever the patterns are and
    without compiling either; on one non-empty pattern it returns what
    compiling that pattern gives, the filter of that kind or an error that
    wraps the compiler's error and carries the pattern; on two empty
    patterns it returns the Null filter. *)
Theorem BuildItemFilter_cases (any all : string) :
  (any ≠ "" → all ≠ "" →
     ItemFilter.BuildItemFilter Compile any all
     = Err (Errorf "only one tag filter type may be specified" []))
  ∧ (any ≠ "" → all = "" →
     ItemFilter.BuildItemFilter Compile any all
     = match Compile any with
       | Ok re => Ok (ItemFilter.ItemFilterAny (Some re))
       | Err err =>
           Err (ErrorfW
              "failed to compile 'any' item filter regular expression %q: %w"
              [any] err)
       end)
  ∧ (any = "" → all ≠ "" →
     ItemFilter.BuildItemFilter Compile any all
     = match Compile all with
       | Ok re => Ok (ItemFilter.ItemFilterAll (Some re))
       | Err err =>
           Err (ErrorfW
              "failed to compile 'all' item filter regular expression %q: %w"
              [all] err)
       end)
  ∧ (any = "" → all = "" →
     ItemFilter.BuildItemFilter Compile any all
     = Ok ItemFilter.ItemFilterNull).
Proof.
  unfold ItemFilter.BuildItemFilter.
  repeat split; intros Hany Hall.
  - apply nonempty_true in Hany, Hall. by rewrite Hany, Hall.
  - apply nonempty_true in Hany. apply nonempty_false in Hall.
    rewrite Hany, Hall. simpl. by destruct (Compile any).
  - apply nonempty_false in Hany. apply nonempty_true in Hall.
    rewrite Hany, Hall. simpl. by destruct (Compile all).
  - apply nonempty_false in Hany, Hall. by rewrite Hany, Hall.
Qed.

End ItemFilterFacts.

(** [BuildItemFilter] with the sample compiler, on the pattern [tag]. *)
Lemma Matches_variants_witness :
  ItemFilter.BuildItemFilter Sample.Compile "tag" ""
  = Ok (ItemFilter.ItemFilterAny
          (Some {| re_String := "tag"; MatchString := Sample.contains "tag" |}))
  ∧ ∃ r, Some {| re_String := "tag"; MatchString := Sample.contains "tag" |}
         = Some r
      ∧ ItemFilter.Matches (ItemFilter.ItemFilterAny (Some r)) [] = false.
Proof.
  split; [reflexivity|].
  destruct (Matches_variants Sample.Compile "tag" "" _ eq_refl)
    as (r & Hr & Hnil & _).
  exists r. split; [exact Hr|]. injection Hr as <-. exact Hnil.
Defined.

(** Two non-empty patterns, the first of which does not compile. *)
Lemma BuildItemFilter_cases_witness :
  Sample.Compile "(" = Err (ExternalError "error parsing regexp")
  ∧ ItemFilter.BuildItemFilter Sample.Compile "(" "b"
    = Err (Errorf "only one tag filter type may be specified" [])
  ∧ ItemFilter.BuildItemFilter Sample.Compile "(" ""
    = Err (ErrorfW
             "failed to compile 'any' item filter regular expression %q: %w"
             ["("] (ExternalError "error parsing regexp")).
Proof.
  split; [reflexivity|]. split.
  - apply (proj1 (BuildItemFilter_cases Sample.Compile "(" "b"));
      discriminate.
  - apply (proj1 (proj2 (BuildItemFilter_cases Sample.Compile "(" "")));
      [discriminate | reflexivity].
Defined.


(** * Properties of the live-image index *)

(** [strings.HasPrefix(s, p)] holds exactly when [s] is [p] followed by
    something. *)
Lemma prefix_true (p s : string) :
  String.prefix p s = true ↔ ∃ rest, s = p +:+ rest.
Proof.
  revert s. induction p as [|c p IH]; intros s; simpl.
  - destruct s; split; eauto.
  - destruct s as [|c' s]; simpl.
    + split; [discriminate | intros [rest Hrest]; discriminate Hrest].
    + destruct (Ascii.ascii_dec c c') as [<-|Hne].
      * rewrite IH. split; intros [rest Hrest]; exists rest.
        -- by rewrite Hrest.
        -- change (String c p +:+ rest) with (String c (p +:+ rest)) in Hrest.
           congruence.
      * split; [discriminate|]. intros [rest Hrest].
        change (String c p +:+ rest) with (String c (p +:+ rest)) in Hrest.
        congruence.
Qed.

Lemma repos_range_true (image : string) (repos : list string) :
  AssetPodFilter.repos_range image repos = true ↔
  ∃ repo, repo ∈ repos ∧ String.prefix repo image = true.
Proof.
  induction repos as [|repo repos IH]; simpl.
  - split; [discriminate | intros (repo & Hin & _); inversion Hin].
  - destruct (String.prefix repo image) eqn:Hp.
    + split; [intros _; exists repo; split; [left | done] | done].
    + rewrite IH. split.
      * intros (r & Hin & Hr). exists r. split; [by right | done].
      * intros (r & Hin & Hr). inversion Hin; subst; [congruence|].
        by exists r.
Qed.

Lemma tags_range_true (identifier : string) (tags : list string) :
  AssetPodFilter.tags_range identifier tags = true ↔ identifier ∈ tags.
Proof.
  induction tags as [|tag tags IH]; simpl.
  - split; [discriminate | intros Hin; inversion Hin].
  - destruct (String.eqb_spec identifier tag) as [->|Hne].
    + split; [intros _; left | done].
    + rewrite IH. split; [by right|].
      intros Hin. inversion Hin; subst; [done | done].
Qed.

Lemma identifiers_range_true (digest : string) (tags repoMatch : list string) :
  AssetPodFilter.identifiers_range digest tags repoMatch = true ↔
  ∃ identifier, identifier ∈ repoMatch ∧ identifier ≠ ""
    ∧ ((∃ rest, digest = identifier +:+ rest) ∨ identifier ∈ tags).
Proof.
  induction repoMatch as [|identifier repoMatch IH]; simpl.
  - split; [discriminate | intros (i & Hin & _); inversion Hin].
  - destruct (String.eqb_spec identifier "") as [->|Hne].
    { rewrite IH. split.
      - intros (i & Hin & Hi). exists i. split; [by right | done].
      - intros (i & Hin & Hne & Hi).
        inversion Hin; subst; [done|]. by exists i. }
    destruct (String.prefix identifier digest) eqn:Hp.
    { apply prefix_true in Hp. split; [|done].
      intros _. exists identifier. split; [left|]. by split; [|left]. }
    destruct (AssetPodFilter.tags_range identifier tags) eqn:Ht.
    { apply tags_range_true in Ht. split; [|done].
      intros _. exists identifier. split; [left|]. by split; [|right]. }
    rewrite IH. split.
    + intros (i & Hin & Hi). exists i. split; [by right | done].
    + intros (i & Hin & Hi & Hm). inversion Hin; subst; [|by exists i].
      destruct Hm as [Hm | Hm].
      * apply prefix_true in Hm. congruence.
      * apply tags_range_true in Hm. congruence.
Qed.

(** C5. [Matches] is false when the repository has no entry in the index;
    when it has one, [Matches] is true exactly when some identifier stored
    for the repository is not empty and is a prefix of the digest or one of
    the tags. *)
Theorem AssetPodFilter_Matches_spec (a : AssetPodFilter.t)
    (repo digest : string) (tags : list string) :
  (AssetPodFilter.images a !! repo = None →
     AssetPodFilter.Matches a repo digest tags = false)
  ∧ (∀ identifiers, AssetPodFilter.images a !! repo = Some identifiers →
     (AssetPodFilter.Matches a repo digest tags = true ↔
      ∃ identifier, identifier ∈ identifiers ∧ identifier ≠ ""
        ∧ ((∃ rest, digest = identifier +:+ rest) ∨ identifier ∈ tags))).
Proof.
  unfold AssetPodFilter.Matches. split.
  - by intros ->.
  - intros identifiers ->. apply identifiers_range_true.
Qed.

Section AddFacts.

Variable ParseReference : string -> result Reference.

(** C6. [Add] returns no error and leaves the index as it is when no
    managed repository is a prefix of the reference.  Otherwise: when the
    reference does not parse, [Add] returns the parser's error and leaves
    the index as it is; when it parses, [Add] returns no error, the entry
    of the parsed repository is its former entry (empty when there was none)
    with the parsed identifier appended, whether or not the identifier was
    there already, and every other entry and the list of managed
    repositories stay as they are.  So [Add] returns an error exactly when
    a managed repository is a prefix of the reference and the reference
    does not parse. *)
Theorem Add_spec (a : AssetPodFilter.t) (image : string) :
  let managed :=
    ∃ repo, repo ∈ AssetPodFilter.repos a ∧ ∃ rest, image = repo +:+ rest in
  let a' := fst (AssetPodFilter.Add ParseReference a image) in
  let err := snd (AssetPodFilter.Add ParseReference a image) in
  (¬ managed → a' = a ∧ err = None)
  ∧ (managed → ∀ e, ParseReference image = Err e → a' = a ∧ err = Some e)
  ∧ (managed → ∀ ref, ParseReference image = Ok ref →
       err = None
       ∧ AssetPodFilter.images a' !! Context_String ref
         = Some (default [] (AssetPodFilter.images a !! Context_String ref)
                 ++ [Identifier ref])
       ∧ (∀ repo, repo ≠ Context_String ref →
            AssetPodFilter.images a' !! repo
            = AssetPodFilter.images a !! repo)
       ∧ AssetPodFilter.repos a' = AssetPodFilter.repos a)
  ∧ (err ≠ None ↔ managed ∧ ∃ e, ParseReference image = Err e).
Proof.
  intros managed a' err.
  assert (Hm : AssetPodFilter.repos_range image (AssetPodFilter.repos a)
               = true ↔ managed).
  { rewrite repos_range_true. unfold managed.
    split; intros (repo & Hin & Hp); exists repo; (split; [done|]);
      by apply prefix_true. }
  subst a' err. unfold AssetPodFilter.Add.
  destruct (AssetPodFilter.repos_range image (AssetPodFilter.repos a)); simpl.
  - assert (managed) as HM by (by apply Hm).
    split; [intros Hn; by destruct Hn|].
    destruct (ParseReference image) as [ref|e]; simpl.
    + split; [intros _ e [=]|]. split.
      * intros _ ref' [= <-]. split; [done|]. split.
        { rewrite lookup_insert_eq.
          by destruct (AssetPodFilter.images a !! Context_String ref). }
        split; [|done]. intros repo Hne. by rewrite lookup_insert_ne.
      * split; [done|]. intros (_ & e & [=]).
    + split; [by intros _ e' [= <-]|]. split; [intros _ ref [=]|].
      split; [|done]. intros _. split; [done|]. by exists e.
  - assert (¬ managed) as HM by (intros HM; apply Hm in HM; discriminate).
    split; [done|]. split; [done|]. split; [done|].
    split; [done|]. by intros [? _].
Qed.

End AddFacts.

(** An index that holds [tag1] for [gcr.io/p/app]. *)
Lemma AssetPodFilter_Matches_spec_witness :
  let a := {| AssetPodFilter.images := {[ "gcr.io/p/app" := ["tag1"] ]};
              AssetPodFilter.repos := ["gcr.io/p"] |} in
  AssetPodFilter.images a !! "gcr.io/p/other" = None
  ∧ AssetPodFilter.Matches a "gcr.io/p/other" "sha256:deadbeef" ["tag1"]
    = false
  ∧ AssetPodFilter.images a !! "gcr.io/p/app" = Some ["tag1"]
  ∧ AssetPodFilter.Matches a "gcr.io/p/app" "sha256:deadbeef" ["tag1"] = true.
Proof.
  intros a.
  assert (Hnone : AssetPodFilter.images a !! "gcr.io/p/other" = None)
    by reflexivity.
  assert (Hsome : AssetPodFilter.images a !! "gcr.io/p/app" = Some ["tag1"])
    by reflexivity.
  split; [exact Hnone|]. split.
  - exact (proj1 (AssetPodFilter_Matches_spec a "gcr.io/p/other"
                    "sha256:deadbeef" ["tag1"]) Hnone).
  - split; [exact Hsome|]. reflexivity.
Defined.

(** [Add] of a reference under a managed repository that parses. *)
Lemma Add_spec_witness :
  let a := AssetPodFilter.NewAssetPodFilter ["gcr.io/p"] in
  (∃ repo, repo ∈ AssetPodFilter.repos a
     ∧ ∃ rest, "gcr.io/p/app:tag1" = repo +:+ rest)
  ∧ Sample.ParseReference "gcr.io/p/app:tag1"
    = Ok {| Context_String := "gcr.io/p/app"; Identifier := "tag1" |}
  ∧ snd (AssetPodFilter.Add Sample.ParseReference a "gcr.io/p/app:tag1")
    = None
  ∧ AssetPodFilter.images
      (fst (AssetPodFilter.Add Sample.ParseReference a "gcr.io/p/app:tag1"))
    !! "gcr.io/p/app" = Some ["tag1"].
Proof.
  intros a.
  assert (Hmanaged : ∃ repo, repo ∈ AssetPodFilter.repos a
                       ∧ ∃ rest, "gcr.io/p/app:tag1" = repo +:+ rest).
  { exists "gcr.io/p". split; [left|]. exists "/app:tag1". reflexivity. }
  split; [exact Hmanaged|]. split; [reflexivity|].
  destruct (proj1 (proj2 (proj2
              (Add_spec Sample.ParseReference a "gcr.io/p/app:tag1")))
              Hmanaged _ eq_refl) as (Herr & Hlookup & _).
  split; [exact Herr | exact Hlookup].
Defined.


(** * Properties of the retention decision *)

(** The decision on the rows of [TestShouldDelete] is the one the test
    expects. *)
Example TestShouldDelete_passes :
  Forall (fun tc => TestShouldDelete.actualToDelete (fst tc) = snd tc)
         TestShouldDelete.tests.
Proof. repeat constructor. Qed.

Section ShouldDeleteFacts.

Context {A : Type} `{PodFilter A}.

(** C1. The decision follows the order of its checks: a manifest whose tags
    the tag keep filter matches is ineligible whatever its timestamps are; a
    manifest whose effective timestamp (the upload time, else the creation
    time) is at or after the cutoff is ineligible whatever the tag filter
    says; and a manifest is eligible exactly when none of the checks 1 to 7
    fires. *)
Theorem shouldDelete_precedence (m : Cleaner.manifest) (since : Time)
    (repoSkipFilter repoPrefixFilter repoKeepFilter
     tagFilter tagKeepFilter : ItemFilter.t) (podFilter : A) :
  let eligible :=
    Cleaner.shouldDelete m since repoSkipFilter repoPrefixFilter
      repoKeepFilter tagFilter tagKeepFilter podFilter in
  let repo := Cleaner.Repo m in
  let tags := Cleaner.Tags (Cleaner.Info m) in
  (ItemFilter.Matches tagKeepFilter tags = true → eligible = false)
  ∧ ((since <= Cleaner.effectiveTimestamp m)%Z → eligible = false)
  ∧ (eligible = true ↔
       ItemFilter.Matches repoSkipFilter [repo] = false
       ∧ ¬ (Cleaner.configured repoPrefixFilter = true
            ∧ ItemFilter.Matches repoPrefixFilter [repo] = false)
       ∧ ItemFilter.Matches repoKeepFilter [repo] = false
       ∧ pf_Matches podFilter repo (Cleaner.Digest m) tags = false
       ∧ ItemFilter.Matches tagKeepFilter tags = false
       ∧ (Cleaner.effectiveTimestamp m < since)%Z
       ∧ ¬ (Cleaner.configured tagFilter = true
            ∧ ItemFilter.Matches tagFilter tags = false)).
Proof.
  intros eligible repo tags. subst eligible repo tags.
  unfold Cleaner.shouldDelete.
  destruct (ItemFilter.Matches repoSkipFilter _),
    (Cleaner.configured repoPrefixFilter),
    (ItemFilter.Matches repoPrefixFilter _),
    (ItemFilter.Matches repoKeepFilter _),
    (pf_Matches podFilter _ _ _),
    (ItemFilter.Matches tagKeepFilter _),
    (Cleaner.configured tagFilter),
    (ItemFilter.Matches tagFilter _);
    destruct (Z.leb_spec since (Cleaner.effectiveTimestamp m)); simpl;
    repeat split; try done; try lia; try tauto;
    try (intros (? & ? & ? & ? & ? & ? & ?); first [done | lia | tauto]).
Qed.

End ShouldDeleteFacts.

(** The ninth row of the test: an old manifest whose tag the tag keep
    filter matches. *)
Lemma shouldDelete_precedence_witness :
  let m := TestShouldDelete.row "gcr.io/example/repo" "digest9"
             TestShouldDelete.Oct_1 TestShouldDelete.Oct_10 ["main9"] in
  ItemFilter.Matches TestShouldDelete.tagKeepFilter
    (Cleaner.Tags (Cleaner.Info m)) = true
  ∧ (Cleaner.effectiveTimestamp m < TestShouldDelete.since)%Z
  ∧ TestShouldDelete.actualToDelete m = false.
Proof.
  intros m. split; [reflexivity|]. split; [reflexivity|].
  exact (proj1 (@shouldDelete_precedence unit mockPodFilter m
                  TestShouldDelete.since TestShouldDelete.repoSkipFilter
                  TestShouldDelete.repoPrefixFilter ItemFilter.ItemFilterNull
                  TestShouldDelete.tagFilter TestShouldDelete.tagKeepFilter
                  tt) eq_refl).
Defined.


(** * Properties of the server *)

(** ** The cutoff *)

Lemma wrap_int64_id (z : Z) : in_int64 z = true → wrap_int64 z = z.
Proof.
  unfold in_int64, wrap_int64, int64_min, int64_max.
  intros [Hlo Hhi]%andb_true_iff.
  apply Z.leb_le in Hlo, Hhi.
  rewrite Z.mod_small; lia.
Qed.

Lemma clean_sub_abs (Grace : Duration) :
  in_int64 Grace = true → Server.clean_sub Grace = (- Z.abs Grace)%Z.
Proof.
  intros Hin. unfold Server.clean_sub.
  destruct (Z.ltb_spec 0 Grace) as [Hpos|Hneg]; [|lia].
  rewrite wrap_int64_id; [lia|].
  unfold in_int64, int64_min, int64_max in *.
  apply andb_true_iff in Hin as [Hlo Hhi].
  apply Z.leb_le in Hlo, Hhi.
  apply andb_true_iff. split; apply Z.leb_le; lia.
Qed.

Lemma clean_since_abs (now : Time) (Grace : Duration) :
  in_int64 Grace = true →
  Server.clean_since now Grace = (now - Z.abs Grace)%Z.
Proof.
  intros Hin. unfold Server.clean_since, Time_Add.
  rewrite clean_sub_abs by done. lia.
Qed.

Section DurationFacts.

Variable ParseDuration : string -> result Duration.
Variable convert_out_of_range : SpecFloat.spec_float -> Z.

(** C7, as the code has it. A numeric grace is taken as a count of
    nanoseconds, its fraction dropped; and for every grace the cutoff is
    the present instant minus the absolute value of the grace: a positive
    grace is negated before it is added, a grace that is not positive is
    added as it is. *)
Theorem grace_cutoff (now : Time) (val : SpecFloat.spec_float) (n : Z) :
  float64_trunc val = Some n →
  in_int64 n = true →
  Server.duration_UnmarshalJSON ParseDuration convert_out_of_range
    (Ok (Server.JFloat64 val)) = Ok (n * Nanosecond)%Z
  ∧ ∀ Grace : Duration, in_int64 Grace = true →
      Server.clean_since now Grace = (now - Z.abs Grace)%Z.
Proof.
  intros Htrunc Hin. split.
  - simpl. unfold Server.Duration_of_float64. rewrite Htrunc, Hin.
    unfold Nanosecond. f_equal. lia.
  - intros Grace. apply clean_since_abs.
Qed.

End DurationFacts.

(** The grace 90 (a JSON number), one minute and a half if it counted
    seconds. *)
Lemma grace_cutoff_witness :
  float64_trunc (float64_of_Z 90) = Some 90%Z
  ∧ in_int64 90 = true
  ∧ Server.duration_UnmarshalJSON Sample.ParseDuration (fun _ => 0%Z)
      (Ok (Server.JFloat64 (float64_of_Z 90))) = Ok (90 * Nanosecond)%Z
  ∧ Server.clean_since 1000000 90 = 999910%Z.
Proof.
  split; [reflexivity|]. split; [reflexivity|].
  destruct (grace_cutoff Sample.ParseDuration (fun _ => 0%Z) 1000000
              (float64_of_Z 90) 90 eq_refl eq_refl) as [Hdecode Hsince].
  split; [exact Hdecode|]. exact (Hsince 90%Z eq_refl).
Defined.

(** The grace 5 (a JSON number) moves the cutoff back by five nanoseconds,
    not by five seconds; the grace -5 moves it back as well, where
    subtracting the grace would move it forward. *)
Lemma grace_seconds_counterexample :
  Server.duration_UnmarshalJSON Sample.ParseDuration (fun _ => 0%Z)
    (Ok (Server.JFloat64 (float64_of_Z 5))) = Ok 5%Z
  ∧ Server.clean_since 10000000000 5 = 9999999995%Z
  ∧ Server.clean_since 10000000000 5 ≠ (10000000000 - 5 * Second)%Z
  ∧ Server.clean_since 10000000000 (-5) = 9999999995%Z
  ∧ Server.clean_since 10000000000 (-5) ≠ (10000000000 - (-5))%Z.
Proof. repeat split; discriminate. Qed.

(** ** The asynchronous path *)

Lemma Insert_fst (c : gset string) (key : string) :
  fst (Cache.Insert c key) = true ↔ key ∈ c.
Proof. unfold Cache.Insert. simpl. apply bool_decide_eq_true. Qed.

Lemma Insert_snd (c : gset string) (key : string) :
  snd (Cache.Insert c key) = {[key]} ∪ c.
Proof. reflexivity. Qed.

Lemma Insert_present (c : gset string) (key : string) :
  key ∈ c → Cache.Insert c key = (true, c).
Proof.
  intros Hin. unfold Cache.Insert. f_equal.
  - by apply bool_decide_eq_true.
  - apply subseteq_union_1_L. by apply singleton_subseteq_l.
Qed.

Lemma Insert_absent (c : gset string) (key : string) :
  key ∉ c → Cache.Insert c key = (false, {[key]} ∪ c).
Proof.
  intros Hin. unfold Cache.Insert. f_equal. by apply bool_decide_eq_false.
Qed.

(** A request whose key is in the cache is acknowledged and changes
    nothing. *)
Lemma PubSubHandler_duplicate (st : Server.pubsubState)
    (m : Server.pubsubMessage) :
  Server.msgID m ∈ Server.cache st →
  Server.PubSubHandler st (Ok m) = (st, Server.WriteHeader 204).
Proof.
  intros Hin. unfold Server.PubSubHandler.
  rewrite (Insert_present _ _ Hin). by destruct st.
Qed.

(** Every request that decodes leaves its key in the cache. *)
Lemma PubSubHandler_cache (st : Server.pubsubState)
    (m : Server.pubsubMessage) :
  Server.cache (fst (Server.PubSubHandler st (Ok m)))
  = {[Server.msgID m]} ∪ Server.cache st.
Proof.
  unfold Server.PubSubHandler.
  destruct (decide (Server.msgID m ∈ Server.cache st)) as [Hin|Hin].
  - rewrite (Insert_present _ _ Hin). simpl. symmetry.
    apply subseteq_union_1_L. by apply singleton_subseteq_l.
  - rewrite (Insert_absent _ _ Hin).
    by destruct (length (Server.Data (Server.Message m)) =? 0)%nat.
Qed.

Lemma step_keeps_key (st : Server.pubsubState) (ev : Server.event)
    (key : string) :
  ev ≠ Server.Expired key →
  key ∈ Server.cache st →
  key ∈ Server.cache (fst (Server.step st ev)).
Proof.
  intros Hev Hin. unfold Server.step. destruct ev as [[m|err]|key'].
  - pose proof (PubSubHandler_cache st m) as Hc.
    destruct (Server.PubSubHandler st (Ok m)) as [st' resp].
    change (key ∈ Server.cache st'). change (fst (st', resp)) with st' in Hc.
    rewrite Hc. apply elem_of_union. by right.
  - done.
  - simpl. unfold Cache.Expire. apply elem_of_difference. split; [done|].
    intros ->%elem_of_singleton. done.
Qed.

Lemma run_keeps_key (st : Server.pubsubState) (evs : list Server.event)
    (key : string) :
  Forall (fun ev => ev ≠ Server.Expired key) evs →
  key ∈ Server.cache st →
  key ∈ Server.cache (Server.run st evs).
Proof.
  intros Hevs. revert st.
  induction Hevs as [|ev evs Hev _ IH]; intros st Hin; simpl; [done|].
  apply IH. by apply step_keeps_key.
Qed.

(** C2, as the code has it. When the envelope decodes and the data is
    empty, the handler runs the check-and-set of the cache first: the key of
    the message is in the cache afterwards and no cleanup is started; the
    request is rejected with status 400 if the key was new and acknowledged
    with status 204 if the key was there; and a request that comes later
    with the same key, whatever its data and whatever was handled in
    between, is acknowledged as a duplicate and changes nothing, as long as
    the cache does not drop the key. *)
Theorem empty_data_after_dedup (st : Server.pubsubState)
    (m : Server.pubsubMessage) :
  Server.Data (Server.Message m) = [] →
  let st' := fst (Server.PubSubHandler st (Ok m)) in
  let resp := snd (Server.PubSubHandler st (Ok m)) in
  Server.cache st' = {[Server.msgID m]} ∪ Server.cache st
  ∧ Server.background st' = Server.background st
  ∧ (Server.msgID m ∉ Server.cache st →
       resp = Server.handleError
                (Errorf "missing data in pubsub payload" []) 400)
  ∧ (Server.msgID m ∈ Server.cache st → resp = Server.WriteHeader 204)
  ∧ ∀ evs m',
      Forall (fun ev => ev ≠ Server.Expired (Server.msgID m)) evs →
      Server.msgID m' = Server.msgID m →
      Server.PubSubHandler (Server.run st' evs) (Ok m')
      = (Server.run st' evs, Server.WriteHeader 204).
Proof.
  intros Hdata st' resp.
  assert (Hcache : Server.cache st'
                   = {[Server.msgID m]} ∪ Server.cache st)
    by apply PubSubHandler_cache.
  assert (Hdup : ∀ evs m',
            Forall (fun ev => ev ≠ Server.Expired (Server.msgID m)) evs →
            Server.msgID m' = Server.msgID m →
            Server.PubSubHandler (Server.run st' evs) (Ok m')
            = (Server.run st' evs, Server.WriteHeader 204)).
  { intros evs m' Hevs Hm'. apply PubSubHandler_duplicate. rewrite Hm'.
    apply run_keeps_key; [done|].
    rewrite Hcache. apply elem_of_union_l. by apply elem_of_singleton. }
  split; [exact Hcache|]. split; [|split; [|split; [|exact Hdup]]];
    subst st' resp; unfold Server.PubSubHandler;
    destruct (decide (Server.msgID m ∈ Server.cache st)) as [Hin|Hin];
    rewrite ?(Insert_present _ _ Hin), ?(Insert_absent _ _ Hin), ?Hdata;
    done.
Qed.

(** C8. The key a request is checked under is the subscription, a slash
    and the message id.  The check-and-set of the cache answers false for a
    key the cache does not hold.  Once a request with key [k] has been
    handled, then, as long as the cache does not drop [k], the check-and-set
    answers true for [k] and every request with key [k] is acknowledged with
    status 204, starts no cleanup and leaves the state as it is, whatever
    was handled in between. *)
Theorem duplicate_acknowledged (st : Server.pubsubState)
    (m1 : Server.pubsubMessage) (evs : list Server.event)
    (m2 : Server.pubsubMessage) :
  Server.msgID m2 = Server.msgID m1 →
  Forall (fun ev => ev ≠ Server.Expired (Server.msgID m1)) evs →
  let k := Server.Subscription m1 +:+ "/" +:+ Server.ID (Server.Message m1) in
  let st1 := fst (Server.PubSubHandler st (Ok m1)) in
  let st2 := Server.run st1 evs in
  (k ∉ Server.cache st → fst (Cache.Insert (Server.cache st) k) = false)
  ∧ Server.cache st1 = snd (Cache.Insert (Server.cache st) k)
  ∧ fst (Cache.Insert (Server.cache st2) k) = true
  ∧ Server.PubSubHandler st2 (Ok m2) = (st2, Server.WriteHeader 204).
Proof.
  intros Hkey Hevs k st1 st2.
  assert (Hin : k ∈ Server.cache st2).
  { apply run_keeps_key; [done|]. subst st1.
    rewrite PubSubHandler_cache. apply elem_of_union_l.
    by apply elem_of_singleton. }
  split.
  { intros Hnew. by rewrite (Insert_absent _ _ Hnew). }
  split; [apply PubSubHandler_cache|].
  split; [by apply Insert_fst|].
  apply PubSubHandler_duplicate. by rewrite Hkey.
Qed.

(** A request with empty data, then one with the same key and data. *)
Lemma empty_data_after_dedup_witness :
  let st := {| Server.cache := ∅; Server.background := [] |} in
  let m := {| Server.Message := {| Server.Data := []; Server.ID := "1" |};
              Server.Subscription := "sub" |} in
  let m' := {| Server.Message :=
                 {| Server.Data := [Byte.x7b; Byte.x7d]; Server.ID := "1" |};
               Server.Subscription := "sub" |} in
  Server.Data (Server.Message m) = []
  ∧ Server.msgID m' = Server.msgID m
  ∧ Server.PubSubHandler (fst (Server.PubSubHandler st (Ok m))) (Ok m')
    = (fst (Server.PubSubHandler st (Ok m)), Server.WriteHeader 204).
Proof.
  intros st m m'. split; [reflexivity|]. split; [reflexivity|].
  exact (proj2 (proj2 (proj2 (proj2
           (empty_data_after_dedup st m eq_refl)))) [] m'
           (Forall_nil_2 _) eq_refl).
Defined.

(** The request with empty data puts its key in the cache, and the
    redelivery with data is then taken for a duplicate: it is acknowledged
    and its data is handed to no cleanup. *)
Lemma empty_data_counterexample :
  let st := {| Server.cache := ∅; Server.background := [] |} in
  let m := {| Server.Message := {| Server.Data := []; Server.ID := "1" |};
              Server.Subscription := "sub" |} in
  let m' := {| Server.Message :=
                 {| Server.Data := [Byte.x7b; Byte.x7d]; Server.ID := "1" |};
               Server.Subscription := "sub" |} in
  let st1 := fst (Server.PubSubHandler st (Ok m)) in
  let st2 := fst (Server.PubSubHandler st1 (Ok m')) in
  Server.status (snd (Server.PubSubHandler st (Ok m))) = 400%Z
  ∧ Server.cache st1 ≠ Server.cache st
  ∧ "sub/1" ∈ Server.cache st1
  ∧ snd (Server.PubSubHandler st1 (Ok m')) = Server.WriteHeader 204
  ∧ Server.background st2 = [].
Proof.
  intros st m m' st1 st2.
  assert (Hin : "sub/1" ∈ Server.cache st1).
  { subst st1. rewrite PubSubHandler_cache. apply elem_of_union_l.
    by apply elem_of_singleton. }
  assert (Hdup : Server.PubSubHandler st1 (Ok m')
                 = (st1, Server.WriteHeader 204))
    by (by apply PubSubHandler_duplicate).
  split; [reflexivity|]. split.
  { intros Heq. rewrite Heq in Hin. exact (not_elem_of_empty _ Hin). }
  split; [exact Hin|]. split; [by rewrite Hdup|].
  subst st2. rewrite Hdup. reflexivity.
Qed.

(** Two requests with one key and a request with another key in
    between. *)
Lemma duplicate_acknowledged_witness :
  let st := {| Server.cache := ∅; Server.background := [] |} in
  let m1 := {| Server.Message :=
                 {| Server.Data := [Byte.x7b; Byte.x7d]; Server.ID := "1" |};
               Server.Subscription := "sub" |} in
  let m := {| Server.Message :=
                {| Server.Data := [Byte.x7b; Byte.x7d]; Server.ID := "2" |};
              Server.Subscription := "sub" |} in
  let evs := [Server.Request (Ok m); Server.Expired "sub/2"] in
  let st2 := Server.run (fst (Server.PubSubHandler st (Ok m1))) evs in
  Forall (fun ev => ev ≠ Server.Expired (Server.msgID m1)) evs
  ∧ Server.background st2 = [[Byte.x7b; Byte.x7d]; [Byte.x7b; Byte.x7d]]
  ∧ Server.PubSubHandler st2 (Ok m1) = (st2, Server.WriteHeader 204).
Proof.
  intros st m1 m evs st2.
  assert (Hevs : Forall (fun ev => ev ≠ Server.Expired (Server.msgID m1)) evs)
    by (repeat constructor; discriminate).
  split; [exact Hevs|]. split; [reflexivity|].
  exact (proj2 (proj2 (proj2
           (duplicate_acknowledged st m1 evs m1 eq_refl Hevs)))).
Defined.

(** ** The order of strings *)

Lemma string_leb_trans (s1 s2 s3 : string) :
  String.leb s1 s2 = true → String.leb s2 s3 = true →
  String.leb s1 s3 = true.
Proof.
  unfold String.leb. revert s2 s3.
  induction s1 as [|a s1 IH]; intros [|b s2] [|c s3]; simpl; try done.
  unfold Ascii.compare.
  destruct (N.compare_spec (N_of_ascii a) (N_of_ascii b)) as [Hab|Hab|Hab],
    (N.compare_spec (N_of_ascii b) (N_of_ascii c)) as [Hbc|Hbc|Hbc],
    (N.compare_spec (N_of_ascii a) (N_of_ascii c)) as [Hac|Hac|Hac];
    try done; try lia.
  apply IH.
Qed.

#[global] Instance string_le_total : Total string_le.
Proof. intros s1 s2. apply String.leb_total. Qed.

#[global] Instance string_le_trans : Transitive string_le.
Proof. intros s1 s2 s3. apply string_leb_trans. Qed.

#[global] Instance string_le_antisym : AntiSymm (=) string_le.
Proof. intros s1 s2. apply String.leb_antisym. Qed.

Lemma sort_Strings_Sorted (l : list string) :
  Sorted string_le (sort_Strings l).
Proof. apply Sorted_merge_sort. apply _. Qed.

Lemma sort_Strings_Permutation (l : list string) : sort_Strings l ≡ₚ l.
Proof. apply merge_sort_Permutation. Qed.

(** There is one sorted arrangement of a list of strings, so
    [sort_Strings] is what every sorting procedure returns. *)
Lemma sort_Strings_unique (l sorted : list string) :
  Sorted string_le sorted → sorted ≡ₚ l → sorted = sort_Strings l.
Proof.
  intros Hsorted Hperm.
  apply (Sorted_unique string_le); [done | apply sort_Strings_Sorted |].
  by rewrite sort_Strings_Permutation.
Qed.

Lemma concat_Permutation {A} (ls1 ls2 : list (list A)) :
  ls1 ≡ₚ ls2 → concat ls1 ≡ₚ concat ls2.
Proof.
  induction 1 as [|l ls1 ls2 _ IH|l1 l2 ls|ls1 ls2 ls3 _ IH1 _ IH2]; simpl.
  - done.
  - by rewrite IH.
  - rewrite !app_assoc. f_equiv. apply Permutation_app_comm.
  - by rewrite IH1.
Qed.

(** ** The synchronous response *)

Lemma refs_range_concat (refs : list string)
    (entries : list (string * list string)) :
  Server.refs_range refs entries = refs ++ concat (snd <$> entries).
Proof.
  revert refs. induction entries as [|[k v] entries IH]; intros refs; simpl.
  - by rewrite app_nil_r.
  - by rewrite IH, app_assoc.
Qed.

Section HandlerFacts.

Context {World : Type}.
Variable E : Server.Externals World.

(** A response with a [cleanResp] is written when [clean] returns no
    error, from the map [clean] returns. *)
Lemma HTTPHandler_CleanBody (w : World) (now : Time)
    (decoded : result Server.Payload) (w' : World) (st : Z)
    (resp : Server.cleanResp) :
  Server.HTTPHandler E w now decoded
  = (w', {| Server.status := st; Server.body := Server.CleanBody resp |}) →
  st = 200%Z
  ∧ ∃ deleted status,
      Server.clean E w now decoded = (w', (deleted, status, None))
      ∧ resp = {| Server.Count := size deleted;
                  Server.Refs :=
                    sort_Strings
                      (Server.refs_range [] (Server.map_range E deleted));
                  Server.RefsByRepo := deleted |}.
Proof.
  unfold Server.HTTPHandler.
  destruct (Server.clean E w now decoded) as [w1 [[deleted status] [err|]]].
  - unfold Server.handleError. intros [= _ _ ?].
  - intros [= <- <- <-]. split; [done|]. by exists deleted, status.
Qed.

(** When [clean] returns no error, what it returns is what the deletion
    loop returns, started on the empty map. *)
Lemma clean_no_error (w : World) (now : Time)
    (decoded : result Server.Payload) (w' : World)
    (deleted : gmap string (list string)) (status : Z) :
  Server.clean E w now decoded = (w', (deleted, status, None)) →
  ∃ p f1 f2 f3 f4 podFilter repos,
    decoded = Ok p
    ∧ Server.delete_range E (Server.clean_since now (Server.Grace p)) p
        f1 f2 f3 f4 podFilter w ∅ repos
      = (w', (deleted, status, None)).
Proof.
  unfold Server.clean, Server.orReturn, Server.fail.
  destruct decoded as [p|err]; [|discriminate].
  destruct (ItemFilter.BuildItemFilter _ (Server.RepoKeepFilterAny p) _)
    as [f1|]; [|discriminate].
  destruct (ItemFilter.BuildItemFilter _ (Server.RepoMatchPrefixFilter p) _)
    as [f2|]; [|discriminate].
  destruct (ItemFilter.BuildItemFilter _ (Server.TagFilterAny p) _)
    as [f3|]; [|discriminate].
  destruct (ItemFilter.BuildItemFilter _ (Server.TagKeepAny p) _)
    as [f4|]; [|discriminate].
  destruct (Server.FindDefaultCredentials E) as [ProjectID|]; [|discriminate].
  destruct (Server.bigquery_NewClient E ProjectID); [discriminate|].
  destruct (Server.query_Read E) as [rows|]; [|discriminate].
  destruct (Server.rows_range E _ rows) as [podFilter|]; [|discriminate].
  destruct (if Server.Recursive p then _ else _) as [repos|]; [|discriminate].
  intros Hloop. by exists p, f1, f2, f3, f4, podFilter, repos.
Qed.

(** When [clean] returns no error, the payload decoded, every preparation
    succeeded, and what [clean] returns is what the deletion loop returns,
    started on the empty map with what was prepared. *)
Lemma clean_no_error_prepared (w : World) (now : Time)
    (decoded : result Server.Payload) (w' : World)
    (deleted : gmap string (list string)) (status : Z) :
  Server.clean E w now decoded = (w', (deleted, status, None)) →
  ∃ p f1 f2 f3 f4 podFilter repos,
    decoded = Ok p
    ∧ Server.prepared E w p f1 f2 f3 f4 podFilter repos
    ∧ Server.delete_range E (Server.clean_since now (Server.Grace p)) p
        f1 f2 f3 f4 podFilter w ∅ repos
      = (w', (deleted, status, None)).
Proof.
  unfold Server.clean, Server.orReturn, Server.fail.
  destruct decoded as [p|err]; [|discriminate].
  destruct (ItemFilter.BuildItemFilter _ (Server.RepoKeepFilterAny p) _)
    as [f1|] eqn:H1; [|discriminate].
  destruct (ItemFilter.BuildItemFilter _ (Server.RepoMatchPrefixFilter p) _)
    as [f2|] eqn:H2; [|discriminate].
  destruct (ItemFilter.BuildItemFilter _ (Server.TagFilterAny p) _)
    as [f3|] eqn:H3; [|discriminate].
  destruct (ItemFilter.BuildItemFilter _ (Server.TagKeepAny p) _)
    as [f4|] eqn:H4; [|discriminate].
  destruct (Server.FindDefaultCredentials E) as [ProjectID|] eqn:Hc;
    [|discriminate].
  destruct (Server.bigquery_NewClient E ProjectID) eqn:Hn; [discriminate|].
  destruct (Server.query_Read E) as [rows|] eqn:Hq; [|discriminate].
  destruct (Server.rows_range E _ rows) as [podFilter|] eqn:Hr;
    [|discriminate].
  destruct (if Server.Recursive p then _ else _) as [repos|] eqn:Hl;
    [|discriminate].
  intros Hloop. exists p, f1, f2, f3, f4, podFilter, repos.
  split; [done|]. split; [|done].
  unfold Server.prepared. rewrite H1, H2, H3, H4, Hc, Hq, Hl.
  do 4 (split; [done|]). split; [|done].
  by exists ProjectID, rows.
Qed.

(** What the deletion loop leaves under a repository: the references the
    calls for that repository report, after what was there, when they
    report any; what was there, when they report none. *)
Lemma delete_range_lookup (since : Time) (p : Server.Payload)
    (f1 f2 f3 f4 : ItemFilter.t) (podFilter : AssetPodFilter.t)
    (repos : list string) (w : World) (deleted : gmap string (list string))
    (w' : World) (deleted' : gmap string (list string)) (status : Z)
    (repo : string) :
  Server.delete_range E since p f1 f2 f3 f4 podFilter w deleted repos
  = (w', (deleted', status, None)) →
  deleted' !! repo
  = match Server.deleted_in
            (Server.delete_calls E since p f1 f2 f3 f4 podFilter w repos)
            repo with
    | [] => deleted !! repo
    | refs => Some (default [] (deleted !! repo) ++ refs)
    end.
Proof.
  revert w deleted.
  induction repos as [|r rest IH]; intros w deleted; simpl.
  - by intros [= <- <- <-].
  - destruct (Server.Clean E w r since (Server.Keep p) f1 f2 f3 f4 podFilter
                (Server.DryRun p)) as [w1 [children|err]]; [|discriminate].
    intros Hloop. rewrite (IH _ _ Hloop). clear IH Hloop.
    unfold Server.deleted_in. rewrite filter_cons. simpl.
    destruct (decide (r = repo)) as [->|Hne].
    + rewrite fmap_cons. simpl.
      destruct children as [|c cs]; simpl; [done|].
      rewrite lookup_insert_eq. simpl.
      destruct (concat _) as [|x xs].
      * by rewrite app_nil_r.
      * by rewrite <- app_assoc.
    + destruct (0 <? length children)%nat; [|done].
      by rewrite lookup_insert_ne.
Qed.

(** C9. In the response of the synchronous path, [refs] is sorted in
    increasing order and holds exactly the references of the lists of
    [refs_by_repo], each as often as it occurs there, in whatever order the
    entries of the map are visited; it is the one sorted arrangement of
    them. *)
Theorem refs_sorted_flat (w : World) (now : Time)
    (decoded : result Server.Payload) (w' : World) (st : Z)
    (resp : Server.cleanResp) :
  Server.map_range_ok E →
  Server.HTTPHandler E w now decoded
  = (w', {| Server.status := st; Server.body := Server.CleanBody resp |}) →
  let flat := concat (snd <$> map_to_list (Server.RefsByRepo resp)) in
  Sorted string_le (Server.Refs resp)
  ∧ Server.Refs resp ≡ₚ flat
  ∧ ∀ sorted, Sorted string_le sorted → sorted ≡ₚ flat →
      sorted = Server.Refs resp.
Proof.
  intros Hrange Hresp flat.
  apply HTTPHandler_CleanBody in Hresp as (_ & deleted & status & _ & ->).
  subst flat. simpl.
  assert (Hflat : Server.refs_range [] (Server.map_range E deleted)
                  ≡ₚ concat (snd <$> map_to_list deleted)).
  { rewrite refs_range_concat. simpl. apply concat_Permutation.
    by rewrite (Hrange deleted). }
  split; [apply sort_Strings_Sorted|]. split.
  - by rewrite sort_Strings_Permutation.
  - intros sorted Hsorted Hperm. apply sort_Strings_unique; [done|].
    by rewrite Hperm, Hflat.
Qed.

(** C10. In the response of the synchronous path, [count] is the number
    of keys of [refs_by_repo]; every key has at least one reference, so a
    repository for which nothing was deleted is not a key; and the keys are
    the repositories for which the calls to [Clean] report a reference, each
    with the references reported for it, where the calls are those made for
    the repositories, with the filters and the index, that [clean] prepares
    from the payload. *)
Theorem count_is_repositories (w : World) (now : Time)
    (decoded : result Server.Payload) (w' : World) (st : Z)
    (resp : Server.cleanResp) :
  Server.HTTPHandler E w now decoded
  = (w', {| Server.status := st; Server.body := Server.CleanBody resp |}) →
  Server.Count resp = size (Server.RefsByRepo resp)
  ∧ (∀ repo refs, Server.RefsByRepo resp !! repo = Some refs → refs ≠ [])
  ∧ ∃ p f1 f2 f3 f4 podFilter repos,
      decoded = Ok p
      ∧ Server.prepared E w p f1 f2 f3 f4 podFilter repos
      ∧ ∀ repo refs,
          Server.RefsByRepo resp !! repo = Some refs ↔
          refs ≠ []
          ∧ refs = Server.deleted_in
                     (Server.delete_calls E
                        (Server.clean_since now (Server.Grace p)) p
                        f1 f2 f3 f4 podFilter w repos) repo.
Proof.
  intros Hresp.
  apply HTTPHandler_CleanBody in Hresp as (_ & deleted & status & Hclean & ->).
  simpl.
  apply clean_no_error_prepared in Hclean
    as (p & f1 & f2 & f3 & f4 & podFilter & repos & -> & Hprep & Hloop).
  assert (Hlookup : ∀ repo refs,
            deleted !! repo = Some refs ↔
            refs ≠ []
            ∧ refs = Server.deleted_in
                       (Server.delete_calls E
                          (Server.clean_since now (Server.Grace p)) p
                          f1 f2 f3 f4 podFilter w repos) repo).
  { intros repo refs.
    rewrite (delete_range_lookup _ _ _ _ _ _ _ _ _ _ _ _ _ repo Hloop).
    rewrite lookup_empty. simpl.
    destruct (Server.deleted_in _ repo) as [|x xs].
    - split; [discriminate | by intros [? ->]].
    - split; [by intros [= <-] | by intros [_ ->]]. }
  split; [done|]. split.
  - intros repo refs Hrefs. by apply Hlookup in Hrefs as [? _].
  - by exists p, f1, f2, f3, f4, podFilter, repos.
Qed.

End HandlerFacts.

(** A run over three repositories, one of which has nothing to delete:
    two keys and three references. *)
Lemma refs_sorted_flat_witness :
  let out := Server.HTTPHandler Sample.externals Sample.registry 1000
               (Ok (Sample.payload
                      ["gcr.io/p/app"; "gcr.io/p/db"; "gcr.io/p/web"])) in
  Server.map_range_ok Sample.externals
  ∧ ∃ resp,
      snd out = {| Server.status := 200; Server.body := Server.CleanBody resp |}
      ∧ Server.Refs resp = ["b"; "v1"; "v2"]
      ∧ Sorted string_le (Server.Refs resp).
Proof.
  intros out.
  assert (Hrange : Server.map_range_ok Sample.externals) by (by intros m).
  split; [exact Hrange|].
  destruct out as [w' [st [| |resp]]] eqn:Hout;
    try (exfalso; subst out; vm_compute in Hout; discriminate Hout).
  assert (Hst : st = 200%Z).
  { subst out. by apply HTTPHandler_CleanBody in Hout as [-> _]. }
  subst st. exists resp. split; [reflexivity|].
  split.
  - subst out. vm_compute in Hout. by injection Hout as _ <-.
  - exact (proj1 (refs_sorted_flat Sample.externals Sample.registry 1000
                    _ w' 200 resp Hrange Hout)).
Defined.

Lemma count_is_repositories_witness :
  let out := Server.HTTPHandler Sample.externals Sample.registry 1000
               (Ok (Sample.payload
                      ["gcr.io/p/app"; "gcr.io/p/db"; "gcr.io/p/web"])) in
  ∃ resp,
    snd out = {| Server.status := 200; Server.body := Server.CleanBody resp |}
    ∧ Server.Count resp = 2
    ∧ length (Server.Refs resp) = 3
    ∧ Server.RefsByRepo resp !! "gcr.io/p/db" = None
    ∧ Server.Count resp = size (Server.RefsByRepo resp).
Proof.
  intros out.
  destruct out as [w' [st [| |resp]]] eqn:Hout;
    try (exfalso; subst out; vm_compute in Hout; discriminate Hout).
  assert (Hst : st = 200%Z).
  { subst out. by apply HTTPHandler_CleanBody in Hout as [-> _]. }
  subst st. exists resp. split; [reflexivity|].
  pose proof (proj1 (count_is_repositories Sample.externals Sample.registry
                       1000 _ w' 200 resp Hout)) as Hcount.
  subst out. vm_compute in Hout. injection Hout as _ <-.
  split; [reflexivity|]. split; [reflexivity|]. split; [reflexivity|].
  exact Hcount.
Defined.

(** * Further properties of the item filters *)

(** What a filter answers depends on which strings are in the list, not on
    their order or on how often they occur. *)
Theorem Matches_same_elements (f : ItemFilter.t) (l1 l2 : list string) :
  (∀ t, t ∈ l1 ↔ t ∈ l2) →
  ItemFilter.Matches f l1 = ItemFilter.Matches f l2.
Proof.
  intros Hsame. destruct f as [|[r|]|[r|]]; simpl; try done.
  - apply Bool.eq_iff_eq_true. rewrite !any_range_true.
    split; intros (t & Hin & Ht); exists t; (split; [by apply Hsame | done]).
  - apply Bool.eq_iff_eq_true. rewrite !all_range_true.
    split; intros Hall t Hin; apply Hall; by apply Hsame.
Qed.

Lemma Matches_same_elements_witness :
  (∀ t : string, t ∈ ["v1"; "v2"; "v1"] ↔ t ∈ ["v2"; "v1"])
  ∧ ItemFilter.Matches
      (ItemFilter.ItemFilterAll (Some (Sample.starts_with "v")))
      ["v1"; "v2"; "v1"]
    = ItemFilter.Matches
        (ItemFilter.ItemFilterAll (Some (Sample.starts_with "v")))
        ["v2"; "v1"].
Proof.
  assert (Hsame : ∀ t : string, t ∈ ["v1"; "v2"; "v1"] ↔ t ∈ ["v2"; "v1"]).
  { intros t. rewrite !elem_of_cons. tauto. }
  split; [exact Hsame|].
  exact (Matches_same_elements _ _ _ Hsame).
Defined.

Lemma any_range_app (re : Regexp) (l1 l2 : list string) :
  ItemFilter.any_range re (l1 ++ l2)
  = ItemFilter.any_range re l1 || ItemFilter.any_range re l2.
Proof.
  induction l1 as [|t l1 IH]; simpl; [done|].
  by destruct (MatchString re t).
Qed.

Lemma all_range_app (re : Regexp) (l1 l2 : list string) :
  ItemFilter.all_range re (l1 ++ l2)
  = ItemFilter.all_range re l1 && ItemFilter.all_range re l2.
Proof.
  induction l1 as [|t l1 IH]; simpl; [done|].
  by destruct (MatchString re t).
Qed.

(** On a list put together from two lists, the Null and Any filters answer
    the disjunction of their answers on the two lists, and the All filter
    the conjunction; the filters without a regular expression included. *)
Theorem Matches_app (f : ItemFilter.t) (l1 l2 : list string) :
  ItemFilter.Matches f (l1 ++ l2)
  = match f with
    | ItemFilter.ItemFilterAll _ =>
        ItemFilter.Matches f l1 && ItemFilter.Matches f l2
    | _ => ItemFilter.Matches f l1 || ItemFilter.Matches f l2
    end.
Proof.
  destruct f as [|[r|]|[r|]]; simpl; try done.
  - apply any_range_app.
  - apply all_range_app.
Qed.

(** A filter without a regular expression has no name ([Name] panics) and
    matches no list, the empty list under the All filter included.
    [BuildItemFilter] never returns one: when a compiled expression prints
    as the pattern it was compiled from, the name of the filter built from
    [any] and [all] is [any(<any>)], [all(<all>)] or [(none)]. *)
Theorem Name_defined (Compile : string -> result Regexp) :
  (∀ p r, Compile p = Ok r → re_String r = p) →
  (∀ f tags, ItemFilter.Name f = None → ItemFilter.Matches f tags = false)
  ∧ (∀ any all f, ItemFilter.BuildItemFilter Compile any all = Ok f →
       ItemFilter.Name f
       = Some (if ItemFilter.nonempty any then "any(" +:+ any +:+ ")"
               else if ItemFilter.nonempty all then "all(" +:+ all +:+ ")"
               else "(none)")).
Proof.
  intros Hexpr. split.
  - intros [|[r|]|[r|]] tags; simpl; done.
  - intros any all f. unfold ItemFilter.BuildItemFilter.
    destruct (ItemFilter.nonempty any), (ItemFilter.nonempty all); simpl;
      try discriminate.
    + destruct (Compile any) as [r|] eqn:Hc; [|discriminate].
      intros [= <-]. simpl. by rewrite (Hexpr _ _ Hc).
    + destruct (Compile all) as [r|] eqn:Hc; [|discriminate].
      intros [= <-]. simpl. by rewrite (Hexpr _ _ Hc).
    + by intros [= <-].
Qed.

Lemma Sample_Compile_String (p : string) (r : Regexp) :
  Sample.Compile p = Ok r → re_String r = p.
Proof.
  unfold Sample.Compile. destruct (Sample.all_plain p); [|discriminate].
  by intros [= <-].
Defined.

Lemma Name_defined_witness :
  (∀ p r, Sample.Compile p = Ok r → re_String r = p)
  ∧ ItemFilter.Name (ItemFilter.ItemFilterAll None) = None
  ∧ ItemFilter.Matches (ItemFilter.ItemFilterAll None) [] = false
  ∧ ItemFilter.BuildItemFilter Sample.Compile "" "release" =
    Ok (ItemFilter.ItemFilterAll
          (Some {| re_String := "release";
                   MatchString := Sample.contains "release" |}))
  ∧ ItemFilter.Name
      (ItemFilter.ItemFilterAll
         (Some {| re_String := "release";
                  MatchString := Sample.contains "release" |}))
    = Some "all(release)".
Proof.
  split; [exact Sample_Compile_String|]. split; [reflexivity|]. split.
  - exact (proj1 (Name_defined Sample.Compile Sample_Compile_String)
                 (ItemFilter.ItemFilterAll None) [] eq_refl).
  - split; [reflexivity|].
    exact (proj2 (Name_defined Sample.Compile Sample_Compile_String)
                 "" "release" _ eq_refl).
Defined.

(** On a list that is not empty, an All filter that matches implies that
    the Any filter with the same regular expression matches; on a list of
    one string, as the lists of one repository the filters of repositories
    are asked about, the two filters answer the same. *)
Theorem All_implies_Any (re : option Regexp) (tags : list string) :
  tags ≠ [] →
  (ItemFilter.Matches (ItemFilter.ItemFilterAll re) tags = true →
   ItemFilter.Matches (ItemFilter.ItemFilterAny re) tags = true)
  ∧ (length tags = 1 →
     ItemFilter.Matches (ItemFilter.ItemFilterAll re) tags
     = ItemFilter.Matches (ItemFilter.ItemFilterAny re) tags).
Proof.
  intros Hne. destruct re as [r|]; simpl; [|done].
  destruct tags as [|t tags]; [done|]. simpl.
  destruct (MatchString r t); simpl; [|split; [done|]].
  - split; [done|]. by destruct tags.
  - by destruct tags.
Qed.

Lemma All_implies_Any_witness :
  ["main9"; "latest"] ≠ ([] : list string)
  ∧ ItemFilter.Matches
      (ItemFilter.ItemFilterAll (Some (Sample.starts_with "main")))
      ["main9"; "latest"] = false
  ∧ ItemFilter.Matches
      (ItemFilter.ItemFilterAny (Some (Sample.starts_with "main")))
      ["main9"; "latest"] = true
  ∧ ItemFilter.Matches
      (ItemFilter.ItemFilterAll (Some (Sample.starts_with "main"))) ["main9"]
    = ItemFilter.Matches
        (ItemFilter.ItemFilterAny (Some (Sample.starts_with "main")))
        ["main9"].
Proof.
  split; [discriminate|]. split; [reflexivity|]. split; [reflexivity|].
  refine (proj2 (All_implies_Any (Some (Sample.starts_with "main"))
                   ["main9"] _) eq_refl).
  discriminate.
Defined.

(** * Further properties of the live-image index *)

Lemma repos_range_managed (image : string) (repos : list string) :
  AssetPodFilter.repos_range image repos = true ↔ Server.managed repos image.
Proof.
  rewrite repos_range_true. unfold Server.managed.
  split; intros (repo & Hin & Hp); exists repo; (split; [done|]);
    by apply prefix_true.
Qed.

Lemma identifiers_range_app (digest : string) (tags l1 l2 : list string) :
  AssetPodFilter.identifiers_range digest tags (l1 ++ l2)
  = AssetPodFilter.identifiers_range digest tags l1
    || AssetPodFilter.identifiers_range digest tags l2.
Proof.
  induction l1 as [|i l1 IH]; simpl; [done|].
  destruct (String.eqb i ""); [done|].
  destruct (String.prefix i digest); [done|].
  by destruct (AssetPodFilter.tags_range i tags).
Qed.

Lemma identifiers_range_one (digest identifier : string)
    (tags : list string) :
  AssetPodFilter.identifiers_range digest tags [identifier] = true ↔
  Server.identifies identifier digest tags.
Proof.
  rewrite identifiers_range_true. unfold Server.identifies. split.
  - intros (i & Hin & Hne & Hm). apply list_elem_of_singleton in Hin.
    by subst i.
  - intros [Hne Hm]. exists identifier. split; [left | done].
Qed.

Section IndexFacts.

Variable ParseReference : string -> result Reference.

Lemma Add_repos (a : AssetPodFilter.t) (image : string) :
  AssetPodFilter.repos (fst (AssetPodFilter.Add ParseReference a image))
  = AssetPodFilter.repos a.
Proof.
  unfold AssetPodFilter.Add.
  destruct (AssetPodFilter.repos_range _ _); simpl; [|done].
  by destruct (ParseReference image).
Qed.

(** [Matches] after a reference was stored, from [Matches] before. *)
Lemma Matches_Add_orb (a : AssetPodFilter.t) (image : string)
    (ref : Reference) (repo digest : string) (tags : list string) :
  AssetPodFilter.repos_range image (AssetPodFilter.repos a) = true →
  ParseReference image = Ok ref →
  AssetPodFilter.Matches
    (fst (AssetPodFilter.Add ParseReference a image)) repo digest tags
  = AssetPodFilter.Matches a repo digest tags
    || bool_decide (repo = Context_String ref)
       && AssetPodFilter.identifiers_range digest tags [Identifier ref].
Proof.
  intros Hm Hparse.
  unfold AssetPodFilter.Add. rewrite Hm, Hparse. cbn [negb fst].
  unfold AssetPodFilter.Matches. cbn [AssetPodFilter.images].
  destruct (decide (repo = Context_String ref)) as [->|Hne].
  - rewrite lookup_insert_eq, identifiers_range_app, bool_decide_eq_true_2
      by done.
    by destruct (AssetPodFilter.images a !! Context_String ref).
  - rewrite lookup_insert_ne, bool_decide_eq_false_2 by done.
    by rewrite orb_false_r.
Qed.

(** What the index answers after a reference was added: what it answered
    before, and besides true for the repository of the reference when the
    identifier of the reference is not empty and is a prefix of the digest
    or one of the tags. *)
Theorem Matches_after_Add (a : AssetPodFilter.t) (image : string)
    (ref : Reference) (repo digest : string) (tags : list string) :
  Server.managed (AssetPodFilter.repos a) image →
  ParseReference image = Ok ref →
  AssetPodFilter.Matches
    (fst (AssetPodFilter.Add ParseReference a image)) repo digest tags = true
  ↔ AssetPodFilter.Matches a repo digest tags = true
    ∨ (repo = Context_String ref
       ∧ Server.identifies (Identifier ref) digest tags).
Proof.
  intros Hm%repos_range_managed Hparse.
  rewrite (Matches_Add_orb a image ref) by done.
  rewrite orb_true_iff, andb_true_iff, bool_decide_eq_true.
  by rewrite identifiers_range_one.
Qed.

(** Adding leaves the list of managed repositories as it is and never
    takes a match away, whether the reference is skipped, refused or
    stored. *)
Theorem Matches_Add_mono (a : AssetPodFilter.t) (image : string)
    (repo digest : string) (tags : list string) :
  AssetPodFilter.repos (fst (AssetPodFilter.Add ParseReference a image))
  = AssetPodFilter.repos a
  ∧ (AssetPodFilter.Matches a repo digest tags = true →
     AssetPodFilter.Matches
       (fst (AssetPodFilter.Add ParseReference a image)) repo digest tags
     = true).
Proof.
  split; [apply Add_repos|]. intros Hmatch.
  destruct (AssetPodFilter.repos_range image (AssetPodFilter.repos a))
    eqn:Hm.
  - destruct (ParseReference image) as [ref|err] eqn:Hparse.
    + rewrite (Matches_Add_orb a image ref) by done. by rewrite Hmatch.
    + unfold AssetPodFilter.Add. by rewrite Hm, Hparse.
  - unfold AssetPodFilter.Add. by rewrite Hm.
Qed.

Lemma Add_accepted (a : AssetPodFilter.t) (image : string) :
  snd (AssetPodFilter.Add ParseReference a image) = None ↔
  Server.row_accepted ParseReference (AssetPodFilter.repos a)
    (Server.RowValues (Server.BQString image)) = true.
Proof.
  unfold AssetPodFilter.Add, Server.row_accepted.
  destruct (AssetPodFilter.repos_range _ _); simpl; [|done].
  by destruct (ParseReference image).
Qed.

End IndexFacts.

Lemma Matches_after_Add_witness :
  let a := AssetPodFilter.NewAssetPodFilter ["gcr.io/p"] in
  let a' := fst (AssetPodFilter.Add Sample.ParseReference a
                   "gcr.io/p/app:tag1") in
  Server.managed (AssetPodFilter.repos a) "gcr.io/p/app:tag1"
  ∧ AssetPodFilter.Matches a "gcr.io/p/app" "sha256:deadbeef" ["tag1"] = false
  ∧ AssetPodFilter.Matches a' "gcr.io/p/app" "sha256:deadbeef" ["tag1"] = true
  ∧ AssetPodFilter.Matches a' "gcr.io/p/app" "sha256:deadbeef" [] = false.
Proof.
  intros a a'.
  assert (Hm : Server.managed (AssetPodFilter.repos a) "gcr.io/p/app:tag1").
  { exists "gcr.io/p". split; [left|]. by exists "/app:tag1". }
  split; [exact Hm|]. split; [reflexivity|]. split; [|reflexivity].
  apply (Matches_after_Add Sample.ParseReference a "gcr.io/p/app:tag1"
           {| Context_String := "gcr.io/p/app"; Identifier := "tag1" |}
           "gcr.io/p/app" "sha256:deadbeef" ["tag1"] Hm eq_refl).
  right. split; [reflexivity|]. split; [discriminate|]. right. left.
Defined.

(** A reference stored in an index that matches a query, and a reference
    added to a fresh index, on which nothing matches. *)
Lemma Matches_Add_mono_witness :
  let a := {| AssetPodFilter.images := {[ "gcr.io/p/app" := ["tag1"] ]};
              AssetPodFilter.repos := ["gcr.io/p"] |} in
  let fresh := AssetPodFilter.NewAssetPodFilter ["gcr.io/p"] in
  AssetPodFilter.Matches a "gcr.io/p/app" "sha256:deadbeef" ["tag1"] = true
  ∧ AssetPodFilter.Matches
      (fst (AssetPodFilter.Add Sample.ParseReference a "gcr.io/p/app:tag2"))
      "gcr.io/p/app" "sha256:deadbeef" ["tag1"] = true
  ∧ AssetPodFilter.repos
      (fst (AssetPodFilter.Add Sample.ParseReference fresh
              "gcr.io/p/app:tag2"))
    = ["gcr.io/p"].
Proof.
  intros a fresh. split; [reflexivity|]. split.
  - exact (proj2 (Matches_Add_mono Sample.ParseReference a "gcr.io/p/app:tag2"
                    "gcr.io/p/app" "sha256:deadbeef" ["tag1"]) eq_refl).
  - exact (proj1 (Matches_Add_mono Sample.ParseReference fresh
                    "gcr.io/p/app:tag2" "gcr.io/p/app" "sha256:deadbeef"
                    ["tag1"])).
Defined.

(** ** The ingestion of the rows *)

Section IngestionFacts.

Context {World : Type}.
Variable E : Server.Externals World.

Lemma rows_range_string (pf : AssetPodFilter.t) (image : string)
    (rest : list Server.rowResult) :
  Server.rows_range E pf (Server.RowValues (Server.BQString image) :: rest)
  = match snd (AssetPodFilter.Add (Server.ParseReference E) pf image) with
    | Some err => Err (ErrorfW "failed to parse container image: %w" [] err)
    | None =>
        Server.rows_range E
          (fst (AssetPodFilter.Add (Server.ParseReference E) pf image)) rest
    end.
Proof.
  simpl.
  by destruct (AssetPodFilter.Add (Server.ParseReference E) pf image)
    as [pf1 [err|]].
Qed.

Lemma rows_range_not_accepted (pf : AssetPodFilter.t)
    (bad : Server.rowResult) (rest : list Server.rowResult) :
  Server.row_accepted (Server.ParseReference E) (AssetPodFilter.repos pf) bad
  = false →
  ∃ err, Server.rows_range E pf (bad :: rest) = Err err
         ∧ Server.rows_range E pf [bad] = Err err.
Proof.
  intros Hbad. destruct bad as [err|[image|repr]].
  - by eexists.
  - rewrite !rows_range_string.
    destruct (snd (AssetPodFilter.Add _ pf image)) as [err|] eqn:Hadd.
    + by eexists.
    + apply Add_accepted in Hadd. congruence.
  - by eexists.
Qed.

(** The ingestion of the rows stops at the first row it does not accept: a
    row the iterator fails on, a row whose first value is not a string, or
    a reference under a managed repository that does not parse.  It
    succeeds exactly when it accepts every row; and when a row is not
    accepted after rows that are, the error is the one of that row,
    whatever rows come after it. *)
Theorem rows_range_fail_fast (pf : AssetPodFilter.t)
    (rows : list Server.rowResult) :
  let accepted row :=
    Server.row_accepted (Server.ParseReference E) (AssetPodFilter.repos pf)
      row = true in
  ((∃ pf', Server.rows_range E pf rows = Ok pf') ↔ Forall accepted rows)
  ∧ ∀ good bad rest,
      rows = good ++ bad :: rest → Forall accepted good → ¬ accepted bad →
      ∃ err, Server.rows_range E pf rows = Err err
             ∧ Server.rows_range E pf (good ++ [bad]) = Err err.
Proof.
  intros accepted. subst accepted. split.
  - revert pf. induction rows as [|row rows IH]; intros pf.
    { split; [constructor | by eexists]. }
    destruct (Server.row_accepted (Server.ParseReference E)
                (AssetPodFilter.repos pf) row) eqn:Hrow.
    + destruct row as [err|[image|repr]]; try discriminate.
      rewrite rows_range_string.
      rewrite (proj2 (Add_accepted _ pf image) Hrow).
      rewrite IH, Add_repos. split.
      * intros Hrest. by constructor.
      * intros Hall. by inversion Hall.
    + split.
      * intros [pf' Hok].
        destruct (rows_range_not_accepted pf row rows Hrow) as (e & He & _).
        congruence.
      * intros Hall. inversion Hall; congruence.
  - intros good bad rest -> Hgood Hbad. apply not_true_is_false in Hbad.
    revert pf Hgood Hbad.
    induction good as [|row good IH]; intros pf Hgood Hbad; simpl app.
    { by apply rows_range_not_accepted. }
    inversion Hgood as [|? ? Hrow Hgood']; subst.
    destruct row as [err|[image|repr]]; try discriminate.
    rewrite !rows_range_string.
    rewrite (proj2 (Add_accepted _ pf image) Hrow).
    apply IH; by rewrite Add_repos.
Qed.

(** After an ingestion that succeeds, the index answers true for what it
    answered true before, and for the repository and an identifier that is
    not empty of some row that is a reference under a managed repository,
    when the identifier is a prefix of the digest or one of the tags; for
    nothing else.  The managed repositories stay as they are. *)
Theorem rows_range_live (pf : AssetPodFilter.t)
    (rows : list Server.rowResult) (pf' : AssetPodFilter.t) :
  Server.rows_range E pf rows = Ok pf' →
  AssetPodFilter.repos pf' = AssetPodFilter.repos pf
  ∧ ∀ repo digest tags,
      AssetPodFilter.Matches pf' repo digest tags = true ↔
      AssetPodFilter.Matches pf repo digest tags = true
      ∨ ∃ image ref,
          Server.RowValues (Server.BQString image) ∈ rows
          ∧ Server.managed (AssetPodFilter.repos pf) image
          ∧ Server.ParseReference E image = Ok ref
          ∧ repo = Context_String ref
          ∧ Server.identifies (Identifier ref) digest tags.
Proof.
  revert pf. induction rows as [|row rows IH]; intros pf.
  { intros [= <-]. split; [done|]. intros repo digest tags.
    split; [by left|]. intros [H|(image & ref & Hin & _)]; [done|].
    inversion Hin. }
  destruct row as [err|[image|repr]]; try discriminate.
  rewrite rows_range_string.
  destruct (snd (AssetPodFilter.Add _ pf image)) as [err|] eqn:Hadd;
    [discriminate|].
  intros Hrest. apply IH in Hrest as [Hrepos Hlive]. clear IH.
  rewrite Add_repos in Hrepos, Hlive. split; [done|].
  intros repo digest tags. rewrite Hlive. clear Hlive.
  assert (Hstep :
    AssetPodFilter.Matches
      (fst (AssetPodFilter.Add (Server.ParseReference E) pf image))
      repo digest tags = true
    ↔ AssetPodFilter.Matches pf repo digest tags = true
      ∨ ∃ ref, Server.managed (AssetPodFilter.repos pf) image
               ∧ Server.ParseReference E image = Ok ref
               ∧ repo = Context_String ref
               ∧ Server.identifies (Identifier ref) digest tags).
  { destruct (AssetPodFilter.repos_range image (AssetPodFilter.repos pf))
      eqn:Hm.
    - apply repos_range_managed in Hm as Hmanaged.
      destruct (Server.ParseReference E image) as [ref|err] eqn:Hparse.
      + rewrite (Matches_Add_orb _ pf image ref) by done.
        rewrite orb_true_iff, andb_true_iff, bool_decide_eq_true.
        rewrite identifiers_range_one. split.
        * intros [H|[-> H]]; [by left|]. right. by exists ref.
        * intros [H|(ref' & _ & [= <-] & -> & H)]; [by left | by right].
      + unfold AssetPodFilter.Add in Hadd. rewrite Hm, Hparse in Hadd.
        discriminate.
    - unfold AssetPodFilter.Add. rewrite Hm. simpl. split; [by left|].
      intros [H|(ref & Hmanaged & _)]; [done|].
      apply repos_range_managed in Hmanaged. congruence. }
  rewrite Hstep. split.
  - intros [[H|(ref & Hm & Hp & Hr & Hi)]|(image' & ref & Hin & H)].
    + by left.
    + right. exists image, ref. split; [left | done].
    + right. exists image', ref. split; [by right | done].
  - intros [H|(image' & ref & Hin & Hm & Hp & Hr & Hi)]; [by left; left|].
    apply elem_of_cons in Hin as [[= ->]|Hin].
    + left. right. by exists ref.
    + right. by exists image', ref.
Qed.

End IngestionFacts.

Lemma rows_range_fail_fast_witness :
  let pf := AssetPodFilter.NewAssetPodFilter ["gcr.io/p"] in
  let good := [Server.RowValues (Server.BQString "gcr.io/p/app:live");
               Server.RowValues (Server.BQString "docker.io/nginx")] in
  let bad := Server.RowValues (Server.BQString "gcr.io/p/app:") in
  let rest := [Server.RowError (ExternalError "deadline exceeded")] in
  Forall (fun row =>
            Server.row_accepted Sample.ParseReference
              (AssetPodFilter.repos pf) row = true) good
  ∧ Server.row_accepted Sample.ParseReference (AssetPodFilter.repos pf) bad
    ≠ true
  ∧ Server.rows_range Sample.externals pf (good ++ bad :: rest)
    = Err (ErrorfW "failed to parse container image: %w" []
             (ExternalError "could not parse reference"))
  ∧ ∃ err, Server.rows_range Sample.externals pf (good ++ bad :: rest)
           = Err err
        ∧ Server.rows_range Sample.externals pf (good ++ [bad]) = Err err.
Proof.
  intros pf good bad rest.
  assert (Hgood : Forall (fun row =>
            Server.row_accepted Sample.ParseReference
              (AssetPodFilter.repos pf) row = true) good)
    by (repeat constructor).
  assert (Hbad : Server.row_accepted Sample.ParseReference
                   (AssetPodFilter.repos pf) bad ≠ true) by discriminate.
  split; [exact Hgood|]. split; [exact Hbad|]. split; [reflexivity|].
  exact (proj2 (rows_range_fail_fast Sample.externals pf
                  (good ++ bad :: rest)) good bad rest eq_refl Hgood Hbad).
Defined.

Lemma rows_range_live_witness :
  let pf := AssetPodFilter.NewAssetPodFilter ["gcr.io/p"] in
  let rows := [Server.RowValues (Server.BQString "gcr.io/p/app:live");
               Server.RowValues (Server.BQString "docker.io/nginx")] in
  ∃ pf', Server.rows_range Sample.externals pf rows = Ok pf'
         ∧ AssetPodFilter.repos pf' = ["gcr.io/p"]
         ∧ AssetPodFilter.Matches pf' "gcr.io/p/app" "sha256:0a" ["live"]
           = true
         ∧ AssetPodFilter.Matches pf' "docker.io/nginx" "sha256:0a" ["latest"]
           = false.
Proof.
  intros pf rows.
  destruct (Server.rows_range Sample.externals pf rows) as [pf'|err] eqn:Hok;
    [|exfalso; vm_compute in Hok; discriminate Hok].
  exists pf'. split; [reflexivity|].
  split; [exact (proj1 (rows_range_live Sample.externals pf rows pf' Hok))|].
  vm_compute in Hok. injection Hok as <-. split; reflexivity.
Defined.

(** * Properties of the decoding of [sortedStringSlice] *)

Section SortedStringSliceFacts.

Variable TrimSpace : string -> string.
Variable keys_range : gset string -> list string.
Hypothesis keys_range_perm : Server.keys_range_ok keys_range.

Lemma elem_of_add_trimmed (m : gset string) (v t : string) :
  t ∈ Server.add_trimmed TrimSpace m v ↔ t ∈ m ∨ Server.kept TrimSpace t [v].
Proof.
  unfold Server.add_trimmed, Server.kept.
  destruct (ItemFilter.nonempty (TrimSpace v)) eqn:Hne.
  - apply nonempty_true in Hne. rewrite elem_of_union, elem_of_singleton.
    split.
    + intros [->|H]; [|by left]. right. split; [done|].
      exists v. split; [left | done].
    + intros [H|[_ (v' & Hin & <-)]]; [by right|].
      apply list_elem_of_singleton in Hin. subst. by left.
  - apply nonempty_false in Hne. split; [by left|].
    intros [H|[Ht (v' & Hin & <-)]]; [done|].
    apply list_elem_of_singleton in Hin. by subst.
Qed.

Lemma kept_cons (t v : string) (strings : list string) :
  Server.kept TrimSpace t (v :: strings) ↔
  Server.kept TrimSpace t [v] ∨ Server.kept TrimSpace t strings.
Proof.
  unfold Server.kept. split.
  - intros [Hne (v' & Hin & Hv)]. apply elem_of_cons in Hin as [->|Hin].
    + left. split; [done|]. exists v. split; [left | done].
    + right. split; [done|]. by exists v'.
  - intros [[Hne (v' & Hin & Hv)]|[Hne (v' & Hin & Hv)]]; (split; [done|]);
      exists v'; (split; [|done]).
    + apply list_elem_of_singleton in Hin. subst. left.
    + by right.
Qed.

Lemma elem_of_strings_range (m : gset string) (val : list string)
    (t : string) :
  t ∈ Server.strings_range TrimSpace m val ↔ t ∈ m ∨ Server.kept TrimSpace t val.
Proof.
  revert m. induction val as [|v val IH]; intros m; simpl.
  - split; [by left|]. intros [H|[_ (v & Hin & _)]]; [done|]. inversion Hin.
  - rewrite IH, elem_of_add_trimmed, (kept_cons t v val). tauto.
Qed.

Lemma anys_range_Ok (m : gset string) (i : nat) (val : list Server.anyElem)
    (m' : gset string) :
  Server.anys_range TrimSpace m i val = Ok m' →
  m' = Server.strings_range TrimSpace m (Server.offered (Server.ASliceAny val))
  ∧ Forall (fun e => ∃ s, e = Server.ElemString s) val.
Proof.
  revert m i. induction val as [|[s|ty] val IH]; intros m i; simpl.
  - intros [= <-]. by split.
  - intros Hok. apply IH in Hok as [-> Hall]. split; [done|].
    constructor; [by exists s | done].
  - discriminate.
Qed.

Lemma decoded_set (v : Server.anyList) (m : gset string) :
  match v with
  | Server.AString val => Ok (Server.add_trimmed TrimSpace ∅ val)
  | Server.ASliceAny val => Server.anys_range TrimSpace ∅ 0 val
  | Server.ASliceString val => Ok (Server.strings_range TrimSpace ∅ val)
  | Server.AOther typeName => Err (Errorf "invalid list type %T" [typeName])
  end = Ok m →
  ∀ t, t ∈ m ↔ Server.kept TrimSpace t (Server.offered v).
Proof.
  intros Hm t. destruct v as [val|val|val|ty]; simpl in *.
  - injection Hm as <-. rewrite elem_of_add_trimmed.
    split; [intros [H|H]; [|done] | by right]. by apply not_elem_of_empty in H.
  - apply anys_range_Ok in Hm as [-> _]. rewrite elem_of_strings_range.
    split; [intros [H|H]; [|done] | by right]. by apply not_elem_of_empty in H.
  - injection Hm as <-. rewrite elem_of_strings_range.
    split; [intros [H|H]; [|done] | by right]. by apply not_elem_of_empty in H.
  - discriminate.
Qed.

(** What is decoded is the sorted arrangement of the keys of a map that
    holds the strings kept. *)
Lemma decoded_list (v : Server.anyList) (list : list string) :
  Server.sortedStringSlice_UnmarshalJSON TrimSpace keys_range (Ok v)
  = Ok list →
  ∃ m : gset string,
    list = sort_Strings (keys_range m)
    ∧ list ≡ₚ elements m
    ∧ ∀ t, t ∈ m ↔ Server.kept TrimSpace t (Server.offered v).
Proof.
  unfold Server.sortedStringSlice_UnmarshalJSON, Server.orReturn.
  destruct (match v with
            | Server.AString val => _
            | Server.ASliceAny val => _
            | Server.ASliceString val => _
            | Server.AOther typeName => _
            end) as [m|err] eqn:Hm; [|discriminate].
  intros [= <-]. exists m. split; [done|]. split.
  - by rewrite sort_Strings_Permutation, (keys_range_perm m).
  - apply (decoded_set v m Hm).
Qed.

(** What [UnmarshalJSON] sets the slice to is in increasing order, holds no
    string twice, and holds exactly the strings of the value that are not
    empty once the white space around them is trimmed, trimmed; so no
    string of it is empty. *)
Theorem sortedStringSlice_sorted_set (v : Server.anyList)
    (list : list string) :
  Server.sortedStringSlice_UnmarshalJSON TrimSpace keys_range (Ok v)
  = Ok list →
  Sorted string_le list
  ∧ NoDup list
  ∧ ∀ t, t ∈ list ↔
         t ≠ "" ∧ ∃ s, s ∈ Server.offered v ∧ TrimSpace s = t.
Proof.
  intros (m & -> & Hperm & Hmem)%decoded_list.
  split; [apply sort_Strings_Sorted|]. split.
  - rewrite Hperm. apply NoDup_elements.
  - intros t. rewrite Hperm, elem_of_elements. apply Hmem.
Qed.

(** [UnmarshalJSON] fails on a value that is neither a string nor a list,
    and on a list with an element that is not a string: the error names the
    type and the index of the first such element, whatever comes after it.
    It fails on nothing else: a string and a list of strings always
    decode, to the empty slice when every string is empty once trimmed. *)
Theorem sortedStringSlice_errors (v : Server.anyList) :
  match v with
  | Server.AString _ | Server.ASliceString _ =>
      ∃ list,
        Server.sortedStringSlice_UnmarshalJSON TrimSpace keys_range (Ok v)
        = Ok list
  | Server.AOther typeName =>
      Server.sortedStringSlice_UnmarshalJSON TrimSpace keys_range (Ok v)
      = Err (Errorf "invalid list type %T" [typeName])
  | Server.ASliceAny val =>
      (Forall (fun e => ∃ s, e = Server.ElemString s) val →
       ∃ list,
         Server.sortedStringSlice_UnmarshalJSON TrimSpace keys_range (Ok v)
         = Ok list)
      ∧ ∀ strings typeName rest,
          val = (Server.ElemString <$> strings)
                ++ Server.ElemOther typeName :: rest →
          Server.sortedStringSlice_UnmarshalJSON TrimSpace keys_range (Ok v)
          = Err (Errorf
                   "list must contain only strings (got %T at index %d)"
                   [typeName; pretty (length strings)])
  end.
Proof.
  unfold Server.sortedStringSlice_UnmarshalJSON, Server.orReturn.
  destruct v as [val|val|val|ty]; simpl; try by eexists.
  split.
  - intros Hall.
    assert (Hok : ∀ m i, ∃ m', Server.anys_range TrimSpace m i val = Ok m').
    { induction Hall as [|e val [s ->] _ IH]; intros m i; simpl;
        [by eexists | apply IH]. }
    destruct (Hok ∅ 0) as [m' ->]. by eexists.
  - intros strings ty rest ->.
    assert (Herr : ∀ m i,
      Server.anys_range TrimSpace m i
        ((Server.ElemString <$> strings) ++ Server.ElemOther ty :: rest)
      = Err (Errorf "list must contain only strings (got %T at index %d)"
               [ty; pretty (i + length strings)])).
    { induction strings as [|s strings IH]; intros m i; simpl.
      - by rewrite Nat.add_0_r.
      - rewrite IH.
        by replace (S i + length strings) with (i + S (length strings))
          by lia. }
    by rewrite (Herr ∅ 0).
Qed.

End SortedStringSliceFacts.

Lemma elements_keys_range_ok : Server.keys_range_ok elements.
Proof. by intros m. Defined.

Lemma sortedStringSlice_sorted_set_witness :
  let v := Server.ASliceAny
             [Server.ElemString " web "; Server.ElemString "app";
              Server.ElemString "  "; Server.ElemString "web"] in
  Server.keys_range_ok elements
  ∧ Server.sortedStringSlice_UnmarshalJSON Sample.TrimSpace elements (Ok v)
    = Ok ["app"; "web"]
  ∧ NoDup ["app"; "web"].
Proof.
  intros v. split; [exact elements_keys_range_ok|].
  assert (Hok : Server.sortedStringSlice_UnmarshalJSON Sample.TrimSpace
                  elements (Ok v) = Ok ["app"; "web"]) by (vm_compute; done).
  split; [exact Hok|].
  exact (proj1 (proj2 (sortedStringSlice_sorted_set Sample.TrimSpace elements
                         elements_keys_range_ok v _ Hok))).
Defined.

Lemma sortedStringSlice_errors_witness :
  Server.sortedStringSlice_UnmarshalJSON Sample.TrimSpace elements
    (Ok (Server.ASliceAny
           [Server.ElemString "app"; Server.ElemString "web";
            Server.ElemOther "float64"; Server.ElemOther "bool"]))
  = Err (Errorf "list must contain only strings (got %T at index %d)"
           ["float64"; "2"]).
Proof.
  exact (proj2 (sortedStringSlice_errors Sample.TrimSpace elements
                  (Server.ASliceAny
                     [Server.ElemString "app"; Server.ElemString "web";
                      Server.ElemOther "float64"; Server.ElemOther "bool"]))
               ["app"; "web"] "float64" [Server.ElemOther "bool"] eq_refl).
Defined.

(** ** The repositories of a payload *)

Section RepositoriesFacts.

Context {World : Type}.
Variable E : Server.Externals World.
Variable keys_range : gset string -> list string.

Lemma gather_filter (repos Repos : list string) :
  Server.gather E repos Repos
  = repos ++ filter (fun t => t ≠ "") (Server.TrimSpace E <$> Repos).
Proof.
  revert repos. induction Repos as [|v Repos IH]; intros repos; simpl.
  - by rewrite app_nil_r.
  - rewrite filter_cons.
    destruct (ItemFilter.nonempty (Server.TrimSpace E v)) eqn:Hne.
    + apply nonempty_true in Hne. rewrite decide_True by done.
      by rewrite IH, <- app_assoc.
    + apply nonempty_false in Hne. rewrite decide_False by (by intros ?).
      apply IH.
Qed.

Lemma gather_id (Repos : list string) :
  Forall (fun t => t ≠ "" ∧ Server.TrimSpace E t = t) Repos →
  Server.gather E [] Repos = Repos.
Proof.
  intros Hall. rewrite gather_filter. simpl.
  induction Hall as [|t Repos [Hne Ht] _ IH]; [done|].
  rewrite fmap_cons, filter_cons, Ht, decide_True by done. by rewrite IH.
Qed.

(** When trimming a trimmed string changes nothing, a list of repositories
    that [UnmarshalJSON] decoded decodes to itself again, and [clean] takes
    it over as it is: the loop of [clean] that trims the repositories and
    drops the empty ones changes nothing in it. *)
Theorem sortedStringSlice_stable (v : Server.anyList) (list : list string) :
  Server.keys_range_ok keys_range →
  (∀ s, Server.TrimSpace E (Server.TrimSpace E s) = Server.TrimSpace E s) →
  Server.sortedStringSlice_UnmarshalJSON (Server.TrimSpace E) keys_range
    (Ok v) = Ok list →
  Server.sortedStringSlice_UnmarshalJSON (Server.TrimSpace E) keys_range
    (Ok (Server.ASliceAny (Server.ElemString <$> list))) = Ok list
  ∧ Server.gather E [] list = list.
Proof.
  intros Hrange Hidem Hdecoded.
  destruct (decoded_list _ _ Hrange v list Hdecoded)
    as (m0 & Hlist & Hperm & Hkept).
  assert (Hsorted : Sorted string_le list)
    by (rewrite Hlist; apply sort_Strings_Sorted).
  assert (Hnodup : NoDup list) by (rewrite Hperm; apply NoDup_elements).
  assert (Htrimmed : Forall (fun t => t ≠ "" ∧ Server.TrimSpace E t = t) list).
  { apply Forall_forall. intros t Hin.
    rewrite Hperm, elem_of_elements in Hin.
    apply Hkept in Hin as [Hne (s & _ & <-)]. by split. }
  clear m0 Hlist Hperm Hkept.
  split; [|by apply gather_id].
  assert (Hoffered : Server.offered
                       (Server.ASliceAny (Server.ElemString <$> list))
                     = list).
  { unfold Server.offered. clear.
    induction list as [|t l IH]; [done|]. cbn. by f_equal. }
  unfold Server.sortedStringSlice_UnmarshalJSON, Server.orReturn.
  destruct (Server.anys_range (Server.TrimSpace E) ∅ 0
              (Server.ElemString <$> list)) as [m|err] eqn:Hm.
  - f_equal. symmetry. apply sort_Strings_unique; [done|].
    rewrite (Hrange m). apply NoDup_Permutation; [done | apply NoDup_elements|].
    intros t. rewrite elem_of_elements.
    rewrite (decoded_set (Server.TrimSpace E)
               (Server.ASliceAny (Server.ElemString <$> list)) m Hm t).
    rewrite Hoffered. unfold Server.kept.
    rewrite Forall_forall in Htrimmed. split.
    + intros Hin. destruct (Htrimmed t Hin) as [Hne Ht].
      split; [done|]. by exists t.
    + intros [_ (s & Hin & <-)]. destruct (Htrimmed s Hin) as [_ Hs].
      by rewrite Hs.
  - exfalso.
    assert (Hok : ∀ m i, ∃ m',
              Server.anys_range (Server.TrimSpace E) m i
                (Server.ElemString <$> list) = Ok m').
    { clear. induction list as [|t l IH]; intros m i; simpl;
        [by eexists | apply IH]. }
    destruct (Hok ∅ 0) as [m' Hm']. congruence.
Qed.

End RepositoriesFacts.

Lemma sortedStringSlice_stable_witness :
  let v := Server.AString "gcr.io/p/app" in
  Server.keys_range_ok elements
  ∧ (∀ s, Server.TrimSpace Sample.externals
            (Server.TrimSpace Sample.externals s)
          = Server.TrimSpace Sample.externals s)
  ∧ Server.sortedStringSlice_UnmarshalJSON
      (Server.TrimSpace Sample.externals) elements (Ok v)
    = Ok ["gcr.io/p/app"]
  ∧ Server.gather Sample.externals [] ["gcr.io/p/app"] = ["gcr.io/p/app"].
Proof.
  intros v. split; [exact elements_keys_range_ok|].
  assert (Hidem : ∀ s, Server.TrimSpace Sample.externals
                         (Server.TrimSpace Sample.externals s)
                       = Server.TrimSpace Sample.externals s)
    by (intros s; reflexivity).
  assert (Hok : Server.sortedStringSlice_UnmarshalJSON
                  (Server.TrimSpace Sample.externals) elements (Ok v)
                = Ok ["gcr.io/p/app"]) by (vm_compute; done).
  split; [exact Hidem|]. split; [exact Hok|].
  exact (proj2 (sortedStringSlice_stable Sample.externals elements v _
                  elements_keys_range_ok Hidem Hok)).
Defined.

(** * Further properties of [clean] and of the handlers *)

Section CleanFacts.

Context {World : Type}.
Variable E : Server.Externals World.

(** The deletion loop returns the map with status 200 and no error, or the
    empty map with status 400 and an error. *)
Lemma delete_range_result (since : Time) (p : Server.Payload)
    (f1 f2 f3 f4 : ItemFilter.t) (podFilter : AssetPodFilter.t)
    (repos : list string) (w : World) (deleted : gmap string (list string)) :
  ∃ w' deleted' status err,
    Server.delete_range E since p f1 f2 f3 f4 podFilter w deleted repos
    = (w', (deleted', status, err))
    ∧ match err with
      | None => status = 200%Z
      | Some _ => deleted' = ∅ ∧ status = 400%Z
      end.
Proof.
  revert w deleted. induction repos as [|r rest IH]; intros w deleted; simpl.
  - by exists w, deleted, 200%Z, None.
  - destruct (Server.Clean E w r since (Server.Keep p) f1 f2 f3 f4 podFilter
                (Server.DryRun p)) as [w1 [children|err]].
    + apply IH.
    + by eexists w1, ∅, 400%Z, (Some _).
Qed.

Lemma delete_range_app (since : Time) (p : Server.Payload)
    (f1 f2 f3 f4 : ItemFilter.t) (podFilter : AssetPodFilter.t)
    (l1 l2 : list string) (w : World) (deleted : gmap string (list string)) :
  Server.delete_range E since p f1 f2 f3 f4 podFilter w deleted (l1 ++ l2)
  = match Server.delete_range E since p f1 f2 f3 f4 podFilter w deleted l1
    with
    | (w1, (deleted1, _, None)) =>
        Server.delete_range E since p f1 f2 f3 f4 podFilter w1 deleted1 l2
    | failed => failed
    end.
Proof.
  revert w deleted. induction l1 as [|r l1 IH]; intros w deleted; simpl.
  - done.
  - destruct (Server.Clean E w r since (Server.Keep p) f1 f2 f3 f4 podFilter
                (Server.DryRun p)) as [w1 [children|err]]; [apply IH | done].
Qed.

(** The deletion loop stops at the first repository [Clean] fails on: it
    returns status 400 and an error that names the repository, the
    repositories after it are not cleaned, and the references deleted in
    the repositories before it are not reported, although they are
    deleted. *)
Theorem delete_range_fail_fast (since : Time) (p : Server.Payload)
    (f1 f2 f3 f4 : ItemFilter.t) (podFilter : AssetPodFilter.t)
    (w : World) (deleted : gmap string (list string))
    (good : list string) (bad : string) (rest : list string)
    (w1 : World) (deleted1 : gmap string (list string)) (status : Z)
    (wbad : World) (err : error) :
  Server.delete_range E since p f1 f2 f3 f4 podFilter w deleted good
  = (w1, (deleted1, status, None)) →
  Server.Clean E w1 bad since (Server.Keep p) f1 f2 f3 f4 podFilter
    (Server.DryRun p) = (wbad, Err err) →
  Server.delete_range E since p f1 f2 f3 f4 podFilter w deleted
    (good ++ bad :: rest)
  = (wbad, (∅, 400%Z,
            Some (ErrorfW "failed to clean repo %q: %w" [bad] err))).
Proof.
  intros Hgood Hbad. rewrite delete_range_app, Hgood. simpl.
  by rewrite Hbad.
Qed.

(** [clean] from a payload that decodes and for which all preparations
    succeed is the deletion loop, started on the empty map. *)
Lemma clean_prepared (w : World) (now : Time) (p : Server.Payload)
    (f1 f2 f3 f4 : ItemFilter.t) (podFilter : AssetPodFilter.t)
    (repos : list string) :
  Server.prepared E w p f1 f2 f3 f4 podFilter repos →
  Server.clean E w now (Ok p)
  = Server.delete_range E (Server.clean_since now (Server.Grace p)) p
      f1 f2 f3 f4 podFilter w ∅ repos.
Proof.
  intros (H1 & H2 & H3 & H4 & (ProjectID & rows & Hc & Hn & Hq & Hr) & Hl).
  unfold Server.clean, Server.orReturn.
  rewrite H1, H2, H3, H4, Hc, Hn, Hq, Hr. by rewrite Hl.
Qed.

(** The synchronous handler answers with status 200 and a [cleanResp], or
    with status 400 or 500 and an [errorResp]; it never answers without a
    body; and a payload that does not decode is answered with status 500
    and the error of the decoder, wrapped, with the registry left as it
    is. *)
Theorem HTTPHandler_status (w : World) (now : Time)
    (decoded : result Server.Payload) :
  let resp := snd (Server.HTTPHandler E w now decoded) in
  match Server.body resp with
  | Server.CleanBody _ => Server.status resp = 200%Z
  | Server.ErrorBody _ =>
      Server.status resp = 400%Z ∨ Server.status resp = 500%Z
  | Server.NoBody => False
  end
  ∧ ∀ err, decoded = Err err →
      Server.HTTPHandler E w now decoded
      = (w, {| Server.status := 500;
               Server.body :=
                 Server.ErrorBody
                   {| Server.Error :=
                        ErrorfW "failed to decode payload as JSON: %w" []
                                err |} |}).
Proof.
  split; [|by intros err ->].
  unfold Server.HTTPHandler, Server.clean, Server.orReturn, Server.fail.
  destruct decoded as [p|err]; [|simpl; by right].
  repeat match goal with
  | |- context [match ?r with Ok _ => _ | Err _ => _ end] =>
      destruct r; [|simpl; by (left + right)]
  | |- context [match Server.bigquery_NewClient E ?x with _ => _ end] =>
      destruct (Server.bigquery_NewClient E x); [simpl; by right|]
  end.
  match goal with
  | |- context [Server.delete_range E ?s ?p ?a ?b ?c ?d ?pf ?w ?m ?r] =>
      destruct (delete_range_result s p a b c d pf r w m)
        as (w' & deleted' & status & [err|] & -> & Hres)
  end; simpl.
  - destruct Hres as [_ ->]. by left.
  - done.
Qed.

(** A run of [clean] that ends with status 500 has not touched the
    registry: the errors with that status all come before the first call
    of [Clean]. *)
Theorem clean_500_untouched (w : World) (now : Time)
    (decoded : result Server.Payload) (w' : World)
    (deleted : gmap string (list string)) (err : option error) :
  Server.clean E w now decoded = (w', (deleted, 500%Z, err)) → w' = w.
Proof.
  unfold Server.clean, Server.orReturn, Server.fail.
  destruct decoded as [p|e]; [|by intros [= <-]].
  repeat match goal with
  | |- context [match ?r with Ok _ => _ | Err _ => _ end] =>
      destruct r; [|by intros [= <-]]
  | |- context [match Server.bigquery_NewClient E ?x with _ => _ end] =>
      destruct (Server.bigquery_NewClient E x); [by intros [= <-]|]
  end.
  match goal with
  | |- context [Server.delete_range E ?s ?p ?a ?b ?c ?d ?pf ?w ?m ?r] =>
      destruct (delete_range_result s p a b c d pf r w m)
        as (w1 & deleted' & status & [e|] & -> & Hres)
  end.
  - destruct Hres as [_ ->]. discriminate.
  - subst status. discriminate.
Qed.

End CleanFacts.

Lemma clean_500_untouched_witness :
  Server.clean Sample.externals Sample.registry 1000
    (Err (ExternalError "unexpected end of JSON input"))
  = (Sample.registry,
     (∅, 500%Z,
      Some (ErrorfW "failed to decode payload as JSON: %w" []
              (ExternalError "unexpected end of JSON input"))))
  ∧ Sample.registry = Sample.registry.
Proof.
  split; [reflexivity|].
  symmetry.
  exact (clean_500_untouched Sample.externals Sample.registry 1000
           (Err (ExternalError "unexpected end of JSON input"))
           Sample.registry ∅ _ eq_refl).
Defined.

(** A body that is not JSON. *)
Lemma HTTPHandler_status_witness :
  let decoded : result Server.Payload :=
    Err (ExternalError "unexpected end of JSON input") in
  Server.HTTPHandler Sample.externals Sample.registry 1000 decoded
  = (Sample.registry,
     {| Server.status := 500;
        Server.body :=
          Server.ErrorBody
            {| Server.Error :=
                 ErrorfW "failed to decode payload as JSON: %w" []
                         (ExternalError "unexpected end of JSON input") |} |}).
Proof.
  intros decoded.
  exact (proj2 (HTTPHandler_status Sample.externals Sample.registry 1000
                  decoded) _ eq_refl).
Defined.

(** A run over a repository the registry has, one it does not have and
    another it has: the first is cleaned, the last is not, and nothing is
    reported. *)
Lemma delete_range_fail_fast_witness :
  let loop := Server.delete_range Sample.externals 1000 (Sample.payload [])
                ItemFilter.ItemFilterNull ItemFilter.ItemFilterNull
                ItemFilter.ItemFilterNull ItemFilter.ItemFilterNull
                (AssetPodFilter.NewAssetPodFilter []) in
  loop Sample.registry ∅ ["gcr.io/p/app"]
  = (delete "gcr.io/p/app" Sample.registry,
     ({[ "gcr.io/p/app" := ["v2"; "v1"] ]}, 200%Z, None))
  ∧ loop Sample.registry ∅ ["gcr.io/p/app"; "gcr.io/p/none"; "gcr.io/p/web"]
    = (delete "gcr.io/p/app" Sample.registry,
       (∅, 400%Z,
        Some (ErrorfW "failed to clean repo %q: %w" ["gcr.io/p/none"]
                (ExternalError "failed to list manifests")))).
Proof.
  intros loop.
  assert (Hgood : loop Sample.registry ∅ ["gcr.io/p/app"]
                  = (delete "gcr.io/p/app" Sample.registry,
                     ({[ "gcr.io/p/app" := ["v2"; "v1"] ]}, 200%Z, None)))
    by reflexivity.
  split; [exact Hgood|].
  exact (delete_range_fail_fast Sample.externals 1000 (Sample.payload [])
           ItemFilter.ItemFilterNull ItemFilter.ItemFilterNull
           ItemFilter.ItemFilterNull ItemFilter.ItemFilterNull
           (AssetPodFilter.NewAssetPodFilter []) Sample.registry ∅
           ["gcr.io/p/app"] "gcr.io/p/none" ["gcr.io/p/web"]
           _ _ _ _ _ Hgood eq_refl).
Defined.

(** ** What the deletion loop reports *)

Lemma values_insert_Permutation (m : gmap string (list string))
    (repo : string) (children : list string) :
  concat (snd <$> map_to_list
            (<[repo := default [] (m !! repo) ++ children]> m))
  ≡ₚ concat (snd <$> map_to_list m) ++ children.
Proof.
  destruct (m !! repo) as [old|] eqn:Hold; simpl.
  - rewrite <- (insert_delete_eq m).
    rewrite map_to_list_insert by apply lookup_delete_eq.
    rewrite <- (insert_id m repo old) at 2 by done.
    rewrite <- (insert_delete_eq m repo old).
    rewrite (map_to_list_insert (delete repo m) repo old)
      by apply lookup_delete_eq.
    simpl. rewrite <- !app_assoc. f_equiv. apply Permutation_app_comm.
  - rewrite map_to_list_insert by done. simpl. apply Permutation_app_comm.
Qed.

Lemma nonempty_values_length (ls : list (list string)) :
  Forall (fun l => l ≠ []) ls → (length ls ≤ length (concat ls))%nat.
Proof.
  induction 1 as [|l ls Hl _ IH]; simpl; [done|].
  rewrite length_app. destruct l; [done|]. simpl. lia.
Qed.

Lemma size_list_to_set_le (l : list string) :
  (size (list_to_set l : gset string) ≤ length l)%nat.
Proof.
  induction l as [|x l IH]; simpl; [done|].
  rewrite size_union_alt, size_singleton.
  pose proof (subseteq_size (list_to_set l ∖ {[x]}) (list_to_set l : gset string)
                (subseteq_difference_l _ _ _ (reflexivity _))).
  lia.
Qed.

Section LoopFacts.

Context {World : Type}.
Variable E : Server.Externals World.

Lemma delete_range_calls (since : Time) (p : Server.Payload)
    (f1 f2 f3 f4 : ItemFilter.t) (podFilter : AssetPodFilter.t)
    (repos : list string) (w : World) (deleted : gmap string (list string))
    (w' : World) (deleted' : gmap string (list string)) (status : Z) :
  Server.delete_range E since p f1 f2 f3 f4 podFilter w deleted repos
  = (w', (deleted', status, None)) →
  let calls := Server.delete_calls E since p f1 f2 f3 f4 podFilter w repos in
  fst <$> calls = repos
  ∧ concat (snd <$> map_to_list deleted')
    ≡ₚ concat (snd <$> map_to_list deleted) ++ concat (snd <$> calls).
Proof.
  revert w deleted. induction repos as [|r rest IH]; intros w deleted; simpl.
  - intros [= <- <- <-]. by rewrite app_nil_r.
  - destruct (Server.Clean E w r since (Server.Keep p) f1 f2 f3 f4 podFilter
                (Server.DryRun p)) as [w1 [children|err]]; [|discriminate].
    intros Hloop. apply IH in Hloop as [Hrepos Hvalues]. simpl.
    split; [f_equal; exact Hrepos|].
    rewrite Hvalues, app_assoc. apply Permutation_app; [|reflexivity].
    destruct children as [|c cs]; simpl; [by rewrite app_nil_r|].
    apply values_insert_Permutation.
Qed.

Lemma delete_range_keys (since : Time) (p : Server.Payload)
    (f1 f2 f3 f4 : ItemFilter.t) (podFilter : AssetPodFilter.t)
    (repos : list string) (w w' : World)
    (deleted : gmap string (list string)) (status : Z) (repo : string) :
  Server.delete_range E since p f1 f2 f3 f4 podFilter w ∅ repos
  = (w', (deleted, status, None)) →
  is_Some (deleted !! repo) → repo ∈ repos.
Proof.
  intros Hloop [refs Hrefs].
  destruct (delete_range_calls _ _ _ _ _ _ _ _ _ _ _ _ _ Hloop)
    as [Hrepos _].
  rewrite (delete_range_lookup E _ _ _ _ _ _ _ _ _ _ _ _ _ repo Hloop)
    in Hrefs.
  rewrite lookup_empty in Hrefs. rewrite <- Hrepos.
  unfold Server.deleted_in in Hrefs.
  destruct (filter _ _) as [|[r c] calls'] eqn:Hfilter; [done|].
  assert (Hin : (r, c) ∈ filter (fun call => fst call = repo)
            (Server.delete_calls E since p f1 f2 f3 f4 podFilter w repos))
    by (rewrite Hfilter; left).
  apply list_elem_of_filter in Hin as [Hr Hin]. simpl in Hr. subst r.
  apply list_elem_of_fmap. by exists (repo, c).
Qed.


Lemma refs_flat (deleted : gmap string (list string)) :
  Server.map_range_ok E →
  sort_Strings (Server.refs_range [] (Server.map_range E deleted))
  ≡ₚ concat (snd <$> map_to_list deleted).
Proof.
  intros Hrange. rewrite sort_Strings_Permutation, refs_range_concat. simpl.
  apply concat_Permutation. by rewrite (Hrange deleted).
Qed.

Lemma clean_values_nonempty (w : World) (now : Time)
    (decoded : result Server.Payload) (w' : World)
    (deleted : gmap string (list string)) (status : Z) :
  Server.clean E w now decoded = (w', (deleted, status, None)) →
  ∀ repo refs, deleted !! repo = Some refs → refs ≠ [].
Proof.
  intros (p & f1 & f2 & f3 & f4 & podFilter & repos & _ & _ & Hloop)
    %clean_no_error_prepared repo refs.
  rewrite (delete_range_lookup E _ _ _ _ _ _ _ _ _ _ _ _ _ repo Hloop).
  rewrite lookup_empty.
  destruct (Server.deleted_in _ repo); [done | by intros [= <-]].
Qed.

(** In the response of the synchronous path, [refs] holds the references
    the calls of [Clean] returned, each as often as it was returned, and
    [count] is at most the number of references and at most the number of
    repositories cleaned. *)
Theorem refs_all_reported (w : World) (now : Time)
    (decoded : result Server.Payload) (w' : World) (st : Z)
    (resp : Server.cleanResp) :
  Server.map_range_ok E →
  Server.HTTPHandler E w now decoded
  = (w', {| Server.status := st; Server.body := Server.CleanBody resp |}) →
  ∃ p f1 f2 f3 f4 podFilter repos,
    decoded = Ok p
    ∧ Server.prepared E w p f1 f2 f3 f4 podFilter repos
    ∧ Server.Refs resp
      ≡ₚ concat (snd <$>
           Server.delete_calls E (Server.clean_since now (Server.Grace p)) p
             f1 f2 f3 f4 podFilter w repos)
    ∧ (Server.Count resp ≤ length (Server.Refs resp))%nat
    ∧ (Server.Count resp ≤ length repos)%nat.
Proof.
  intros Hrange Hresp.
  apply HTTPHandler_CleanBody in Hresp
    as (_ & deleted & status & Hclean & ->). simpl.
  pose proof (clean_values_nonempty _ _ _ _ _ _ Hclean) as Hne.
  pose proof (refs_flat deleted Hrange) as Hflat.
  apply clean_no_error_prepared in Hclean
    as (p & f1 & f2 & f3 & f4 & podFilter & repos & -> & Hprep & Hloop).
  destruct (delete_range_calls _ _ _ _ _ _ _ _ _ _ _ _ _ Hloop)
    as [Hrepos Hvalues].
  rewrite map_to_list_empty in Hvalues. simpl in Hvalues.
  assert (Hdom : ∀ repo, is_Some (deleted !! repo) → repo ∈ repos)
    by (intros repo; by eapply delete_range_keys).
  exists p, f1, f2, f3, f4, podFilter, repos.
  split; [done|]. split; [done|]. split; [by rewrite Hflat|].
  assert (Hsize : (size deleted
                   ≤ length (concat (snd <$> map_to_list deleted)))%nat).
  { rewrite <- length_map_to_list,
      <- (length_fmap snd (map_to_list deleted)).
    apply nonempty_values_length, Forall_forall.
    intros refs [[repo refs'] [-> Hin]]%list_elem_of_fmap. simpl.
    apply elem_of_map_to_list in Hin. by eapply Hne. }
  split.
  - by rewrite Hflat.
  - rewrite <- size_dom.
    etrans; [|apply (size_list_to_set_le repos)].
    apply subseteq_size. intros repo Hin%elem_of_dom.
    apply elem_of_list_to_set. by apply Hdom.
Qed.

End LoopFacts.


Lemma refs_all_reported_witness :
  let decoded := Ok (Sample.payload ["gcr.io/p/web"; "gcr.io/p/db"]) in
  Server.map_range_ok Sample.externals
  ∧ Server.HTTPHandler Sample.externals Sample.registry 1000 decoded
    = (delete "gcr.io/p/db" (delete "gcr.io/p/web" Sample.registry),
       {| Server.status := 200;
          Server.body :=
            Server.CleanBody
              {| Server.Count := 1; Server.Refs := ["b"];
                 Server.RefsByRepo := {[ "gcr.io/p/web" := ["b"] ]} |} |})
  ∧ ∃ repos : list string, (1 ≤ length repos)%nat.
Proof.
  intros decoded.
  assert (Hrange : Server.map_range_ok Sample.externals) by (by intros m).
  assert (Hresp :
    Server.HTTPHandler Sample.externals Sample.registry 1000 decoded
    = (delete "gcr.io/p/db" (delete "gcr.io/p/web" Sample.registry),
       {| Server.status := 200;
          Server.body :=
            Server.CleanBody
              {| Server.Count := 1; Server.Refs := ["b"];
                 Server.RefsByRepo := {[ "gcr.io/p/web" := ["b"] ]} |} |}))
    by (vm_compute; reflexivity).
  split; [exact Hrange|]. split; [exact Hresp|].
  destruct (refs_all_reported Sample.externals Sample.registry 1000 decoded
              _ _ _ Hrange Hresp)
    as (p & f1 & f2 & f3 & f4 & podFilter & repos & _ & _ & _ & _ & Hcount).
  exists repos. exact Hcount.
Defined.

Section RejectedFacts.

Context {World : Type}.
Variable E : Server.Externals World.

(** A payload one of whose four filters cannot be built is turned down
    with status 400 before anything outside is asked: the registry is left
    as it is, and what [clean] returns is the same whatever the credentials,
    the inventory and the registry are.  A payload that sets both tag
    filters is such a payload. *)
Theorem clean_bad_filter (w : World) (now : Time) (p : Server.Payload) :
  (∃ e, ItemFilter.BuildItemFilter (Server.Compile E)
          (Server.RepoKeepFilterAny p) "" = Err e)
  ∨ (∃ e, ItemFilter.BuildItemFilter (Server.Compile E)
            (Server.RepoMatchPrefixFilter p) "" = Err e)
  ∨ (Server.TagFilterAny p ≠ "" ∧ Server.TagFilterAll p ≠ "")
  ∨ (∃ e, ItemFilter.BuildItemFilter (Server.Compile E)
            (Server.TagFilterAny p) (Server.TagFilterAll p) = Err e)
  ∨ (∃ e, ItemFilter.BuildItemFilter (Server.Compile E)
            (Server.TagKeepAny p) "" = Err e) →
  (∃ err, Server.clean E w now (Ok p) = (w, (∅, 400%Z, Some err)))
  ∧ ∀ E' : Server.Externals World,
      Server.Compile E' = Server.Compile E →
      Server.clean E' w now (Ok p) = Server.clean E w now (Ok p).
Proof.
  intros Hbad.
  assert (Hbad' :
    (∃ e, ItemFilter.BuildItemFilter (Server.Compile E)
            (Server.RepoKeepFilterAny p) "" = Err e)
    ∨ (∃ e, ItemFilter.BuildItemFilter (Server.Compile E)
              (Server.RepoMatchPrefixFilter p) "" = Err e)
    ∨ (∃ e, ItemFilter.BuildItemFilter (Server.Compile E)
              (Server.TagFilterAny p) (Server.TagFilterAll p) = Err e)
    ∨ (∃ e, ItemFilter.BuildItemFilter (Server.Compile E)
              (Server.TagKeepAny p) "" = Err e)).
  { destruct Hbad as [H|[H|[[Hany Hall]|[H|H]]]]; auto.
    right. right. left. eexists.
    by apply BuildItemFilter_both. }
  clear Hbad. split.
  - unfold Server.clean, Server.orReturn, Server.fail.
    destruct (ItemFilter.BuildItemFilter _ (Server.RepoKeepFilterAny p) _);
      [|by eexists].
    destruct (ItemFilter.BuildItemFilter _ (Server.RepoMatchPrefixFilter p) _);
      [|by eexists].
    destruct (ItemFilter.BuildItemFilter _ (Server.TagFilterAny p) _);
      [|by eexists].
    destruct (ItemFilter.BuildItemFilter _ (Server.TagKeepAny p) _);
      [|by eexists].
    destruct Hbad' as [[e H]|[[e H]|[[e H]|[e H]]]]; discriminate.
  - intros E' HE. unfold Server.clean, Server.orReturn, Server.fail.
    rewrite HE.
    destruct (ItemFilter.BuildItemFilter _ (Server.RepoKeepFilterAny p) _);
      [|done].
    destruct (ItemFilter.BuildItemFilter _ (Server.RepoMatchPrefixFilter p) _);
      [|done].
    destruct (ItemFilter.BuildItemFilter _ (Server.TagFilterAny p) _);
      [|done].
    destruct (ItemFilter.BuildItemFilter _ (Server.TagKeepAny p) _);
      [|done].
    destruct Hbad' as [[e H]|[[e H]|[[e H]|[e H]]]]; discriminate.
Qed.

End RejectedFacts.

Lemma clean_bad_filter_witness :
  let p := Sample.payload_both ["gcr.io/p/app"] in
  (Server.TagFilterAny p ≠ "" ∧ Server.TagFilterAll p ≠ "")
  ∧ Server.clean Sample.externals Sample.registry 1000 (Ok p)
    = (Sample.registry,
       (∅, 400%Z,
        Some (ErrorfW "failed to build tag filter: %w" []
                (Errorf "only one tag filter type may be specified" []))))
  ∧ ∃ err, Server.clean Sample.externals Sample.registry 1000 (Ok p)
           = (Sample.registry, (∅, 400%Z, Some err)).
Proof.
  intros p.
  assert (Hboth : Server.TagFilterAny p ≠ "" ∧ Server.TagFilterAll p ≠ "")
    by (split; discriminate).
  split; [exact Hboth|]. split; [reflexivity|].
  exact (proj1 (clean_bad_filter Sample.externals Sample.registry 1000 p
                  (or_intror (or_intror (or_introl Hboth))))).
Defined.

(** ** Further properties of the asynchronous path *)

(** Whatever the request and whatever the cache answers, the handler of
    the asynchronous path answers with status 204 or 400 and no other; a
    request that does not decode is answered with 400 and changes nothing;
    and a request starts at most one cleanup, for the data of its message,
    only when the data is not empty, and is then answered with 204. *)
Theorem PubSubHandler_outcomes (st : Server.pubsubState)
    (decoded : result Server.pubsubMessage) :
  let st' := fst (Server.PubSubHandler st decoded) in
  let resp := snd (Server.PubSubHandler st decoded) in
  (Server.status resp = 204%Z ∨ Server.status resp = 400%Z)
  ∧ (∀ err, decoded = Err err → st' = st ∧ Server.status resp = 400%Z)
  ∧ (Server.background st' = Server.background st
     ∨ ∃ m, decoded = Ok m
            ∧ Server.Data (Server.Message m) ≠ []
            ∧ Server.status resp = 204%Z
            ∧ Server.background st'
              = Server.background st ++ [Server.Data (Server.Message m)]).
Proof.
  intros st' resp. subst st' resp. destruct decoded as [m|err].
  - unfold Server.PubSubHandler.
    destruct (Cache.Insert (Server.cache st) (Server.msgID m))
      as [[|] cache'].
    + simpl. split; [by left|]. split; [done|]. by left.
    + destruct (Server.Data (Server.Message m)) as [|b data] eqn:Hdata; simpl.
      * split; [by right|]. split; [done|]. by left.
      * split; [by left|]. split; [done|]. right. exists m.
        rewrite Hdata. by repeat split.
  - simpl. split; [by right|]. split; [by intros ? _|]. by left.
Qed.

Lemma PubSubHandler_outcomes_witness :
  let st := {| Server.cache := {[ "sub/1" ]}; Server.background := [] |} in
  let decoded := Err (ExternalError "unexpected end of JSON input") in
  fst (Server.PubSubHandler st decoded) = st
  ∧ Server.status (snd (Server.PubSubHandler st decoded)) = 400%Z.
Proof.
  intros st decoded.
  exact (proj1 (proj2 (PubSubHandler_outcomes st decoded)) _ eq_refl).
Defined.

Lemma string_app_assoc (s1 s2 s3 : string) :
  (s1 +:+ s2) +:+ s3 = s1 +:+ (s2 +:+ s3).
Proof.
  induction s1 as [|c s1 IH]; [done|].
  change (String c ((s1 +:+ s2) +:+ s3) = String c (s1 +:+ (s2 +:+ s3))).
  by rewrite IH.
Qed.

(** Two messages have the same key when the subscription of the one,
    followed by a slash and the start of its message id, is the
    subscription of the other: the key does not tell where the subscription
    ends.  The request with the second of two such messages is then
    acknowledged as a duplicate of the first and starts no cleanup. *)
Theorem msgID_not_injective (st : Server.pubsubState)
    (m1 m2 : Server.pubsubMessage) (part : string) :
  Server.Subscription m2 = Server.Subscription m1 +:+ "/" +:+ part →
  Server.ID (Server.Message m1) = part +:+ "/" +:+ Server.ID (Server.Message m2) →
  Server.msgID m2 = Server.msgID m1
  ∧ Server.PubSubHandler (fst (Server.PubSubHandler st (Ok m1))) (Ok m2)
    = (fst (Server.PubSubHandler st (Ok m1)), Server.WriteHeader 204).
Proof.
  intros Hsub Hid.
  assert (Hkey : Server.msgID m2 = Server.msgID m1).
  { unfold Server.msgID. rewrite Hsub, Hid.
    by rewrite !string_app_assoc. }
  split; [done|]. apply PubSubHandler_duplicate.
  rewrite PubSubHandler_cache, Hkey.
  apply elem_of_union_l. by apply elem_of_singleton.
Qed.

Lemma msgID_not_injective_witness :
  let st := {| Server.cache := ∅; Server.background := [] |} in
  let m1 := {| Server.Message :=
                 {| Server.Data := [Byte.x7b; Byte.x7d]; Server.ID := "a/7" |};
               Server.Subscription := "projects/p/subscriptions" |} in
  let m2 := {| Server.Message :=
                 {| Server.Data := [Byte.x7b; Byte.x7d]; Server.ID := "7" |};
               Server.Subscription := "projects/p/subscriptions/a" |} in
  m1 ≠ m2
  ∧ Server.msgID m2 = Server.msgID m1
  ∧ Server.PubSubHandler (fst (Server.PubSubHandler st (Ok m1))) (Ok m2)
    = (fst (Server.PubSubHandler st (Ok m1)), Server.WriteHeader 204).
Proof.
  intros st m1 m2. split; [discriminate|].
  exact (msgID_not_injective st m1 m2 "a" eq_refl eq_refl).
Defined.

(** ** Further properties of the cutoff *)

(** The cutoff is never after the present instant, it is the present
    instant exactly when the grace is zero, and a grace and its opposite
    give the same cutoff. *)
Theorem cutoff_not_later (now : Time) (Grace : Duration) :
  in_int64 Grace = true →
  (Server.clean_since now Grace <= now)%Z
  ∧ (Server.clean_since now Grace = now ↔ Grace = 0%Z)
  ∧ (in_int64 (- Grace) = true →
     Server.clean_since now (- Grace) = Server.clean_since now Grace).
Proof.
  intros Hin. rewrite (clean_since_abs now Grace Hin).
  split; [lia|]. split; [lia|].
  intros Hopp. rewrite (clean_since_abs now (- Grace) Hopp). lia.
Qed.

Lemma cutoff_not_later_witness :
  in_int64 (-3600000000000) = true
  ∧ in_int64 (- -3600000000000) = true
  ∧ Server.clean_since 10000000000000 3600000000000
    = Server.clean_since 10000000000000 (-3600000000000).
Proof.
  split; [reflexivity|]. split; [reflexivity|].
  exact (proj2 (proj2 (cutoff_not_later 10000000000000 (-3600000000000)
                         eq_refl)) eq_refl).
Defined.
